(** * Motion Wave: gesture-to-harmony pipeline

    A shallow embedding of the control path of the application:

    - [Tracker]: the hand tracker component (pitch quantizer, gesture
      classifier, per-frame role resolution, the volume and harmonization
      effects);
    - [Audio]: the [VocalAudioEngine] class and its [VocalVoice]s;
    - [Harmonizer]: the [useHarmonizer] hook's response handler;
    - [Sequences]: the hook's sequences, statistics and modes;
    - [Session], [Legacy], [Kept]: runs of frames, the older component's
      classifier, and what the engine keeps true;
    - [Render]: the tracker's callback with its drawing, the effects
      with their dependencies, and the worker effect re-run by a change
      of mode.

    JavaScript numbers are binary64 values; they are modelled by the
    rationals they denote ([Q]).  The code only compares them, clamps
    them, takes [Math.floor], subtracts from 1 and multiplies by a small
    integer.  [JS.round64] is the rounding of an exact result to
    binary64, and [Tracker.Double] is the quantizer with its product
    rounded, as the code computes it; [Tracker.keyIndex] takes the
    product exactly, which gives the same index or the one below it.
    The audio clock ([audioContext.currentTime]) and the value an
    [AudioParam] reports are inputs of the operations that read them. *)

From Stdlib Require Import ZArith QArith Qround Qminmax Qpower Lia Lqa List Sorted
  DecimalString Floats.
From stdpp Require Import gmap strings list fin_maps.

Open Scope Z_scope.

(** ** JavaScript helpers *)

Module JS.

(** [Math.max(0, Math.min(1, v))] *)
Definition clamp01 (v : Q) : Q := Qmax 0 (Qmin 1 v).

(** [arr[i]] for an integer-valued number [i]: [undefined] ([None])
    outside the array. *)
Definition index {A} (arr : list A) (i : Z) : option A :=
  if i <? 0 then None else nth_error arr (Z.to_nat i).

(** [arr[i]] for an array with missing entries. *)
Definition at_ {A} (arr : list (option A)) (i : nat) : option A :=
  match nth_error arr i with
  | Some (Some a) => Some a
  | _ => None
  end.

(** [a < b] *)
Definition lt (a b : Q) : bool := negb (Qle_bool b a).

(** The integers [lo, lo+1, ..., hi] visited by
    [for (let i = lo; i <= hi; i++)]. *)
Definition upto (lo hi : nat) : list nat := seq lo (S hi - lo).

(** *** Binary64 rounding

    The result of an arithmetic operation on numbers is the exact
    result rounded to the nearest binary64 value, ties to the value
    with an even significand. *)

(** [2^e] *)
Definition pow2 (e : Z) : Q := (2 ^ e)%Q.

(** The binade of a positive number [x]: [floor (log2 x)]. *)
Definition binade (x : Q) : Z :=
  let k := Z.log2 (Qnum x) - Z.log2 (Zpos (Qden x)) in
  if Qle_bool (pow2 k) x then k else k - 1.

(** The nearest integer, ties to the even one. *)
Definition nearestEven (y : Q) : Z :=
  let f := Qfloor y in
  match (y - inject_Z f ?= 1 # 2)%Q with
  | Lt => f
  | Gt => f + 1
  | Eq => if Z.even f then f else f + 1
  end.

(** The exponent of the unit in the last place of the binary64 values
    in the binade of [x]: 53 significant bits, and never below the
    subnormal numbers' [-1074]. *)
Definition ulpExponent (x : Q) : Z := Z.max (binade x - 52) (-1074).

Definition roundPositive (x : Q) : Q :=
  (inject_Z (nearestEven (x / pow2 (ulpExponent x))) * pow2 (ulpExponent x))%Q.

(** Rounding to binary64 within the finite range (overflow to
    [Infinity] is left out; the numbers rounded here are at most 9). *)
Definition round64 (x : Q) : Q :=
  match (x ?= 0)%Q with
  | Eq => 0%Q
  | Gt => roundPositive x
  | Lt => (- roundPositive (- x))%Q
  end.

(** The rational a finite binary64 value of the kernel denotes. *)
Definition ofDouble (f : float) : Q :=
  match Prim2SF f with
  | S754_finite s m e =>
      ((if s then -1 else 1) * inject_Z (Zpos m) * pow2 e)%Q
  | _ => 0%Q
  end.

(** Binary64 numbers on which [round64] is set against the kernel's
    multiplication: thirds, tenths, the largest number below 1, the
    smallest positive number. *)
Definition samples : list float :=
  [0x1.5555555555555p-2; 0x1.999999999999ap-4; 0x1.6666666666666p-1;
   0x1.c71c71c71c71cp-1; 0x1.fffffffffffffp-1; 0x1p-1074; 0x1.8p-1073;
   0x1.c71c71c71c71cp-4; 0x1p-1; 1]%float.

End JS.

(** ** The audio engine (utils/audioEngine.ts) *)

Module Audio.

(** A method call on an [AudioParam]; the last argument is the
    audio-clock time the call is anchored to. *)
Inductive ParamCall : Type :=
| cancelScheduledValues (t : Q)
| setValueAtTime (v t : Q)
| linearRampToValueAtTime (v t : Q).

(** An [AudioParam]: the value its getter reports at present (kept up to
    date by the rendering thread), and the calls made on it, oldest
    first. *)
Record AudioParam : Type := {
  value : Q;
  calls : list ParamCall
}.

Definition schedule (p : AudioParam) (cs : list ParamCall) : AudioParam :=
  {| value := value p; calls := calls p ++ cs |}.

(** An [OscillatorNode].  Its frequency is [detune * midiToFrequency m]
    for the MIDI note [m] of the voice that owns it;
    [440 * 2 ^ ((m - 69) / 12)] is not a rational number and is not
    computed here. *)
Record Oscillator : Type := {
  type : string;
  detune : Q;
  startTime : option Q;
  stopTime : option Q
}.

Record VocalVoice : Type := {
  midiNote : Z;
  voiceType : string;
  oscillator1 : Oscillator;
  oscillator2 : Oscillator;
  filterType : string;
  filterFrequency : Q;
  filterQ : Q;
  gainNode : AudioParam
}.

(** [setupVocalFilter]: the centre frequency per voice type. *)
Definition filterFreq (voiceType : string) : Q :=
  if String.eqb voiceType "soprano" then 1200
  else if String.eqb voiceType "alto" then 900
  else if String.eqb voiceType "tenor" then 650
  else if String.eqb voiceType "bass" then 400
  else 800.

Definition attackTime : Q := 0.05.
Definition sustainLevel : Q := 0.25.
Definition releaseTime : Q := 0.1.
Definition transitionTime : Q := 0.05.

(** [setupGainEnvelope] on a fresh gain node (default gain 1). *)
Definition setupGainEnvelope (now : Q) : AudioParam :=
  schedule {| value := 1; calls := [] |}
    [setValueAtTime 0 now; linearRampToValueAtTime sustainLevel (now + attackTime)].

(** [new VocalVoice(audioContext, destination, midiNote, voiceType)] *)
Definition newVocalVoice (now : Q) (midiNote : Z) (voiceType : string) : VocalVoice :=
  {| midiNote := midiNote;
     voiceType := voiceType;
     oscillator1 := {| type := "sawtooth"; detune := 1;
                       startTime := None; stopTime := None |};
     oscillator2 := {| type := "triangle"; detune := 1.002;
                       startTime := None; stopTime := None |};
     filterType := "bandpass";
     filterFrequency := filterFreq voiceType;
     filterQ := 2;
     gainNode := setupGainEnvelope now |}.

Definition startOsc (t : Q) (o : Oscillator) : Oscillator :=
  {| type := type o; detune := detune o;
     startTime := Some t; stopTime := stopTime o |}.

Definition stopOsc (t : Q) (o : Oscillator) : Oscillator :=
  {| type := type o; detune := detune o;
     startTime := startTime o; stopTime := Some t |}.

(** [VocalVoice.start] *)
Definition start (now : Q) (v : VocalVoice) : VocalVoice :=
  {| midiNote := midiNote v; voiceType := voiceType v;
     oscillator1 := startOsc now (oscillator1 v);
     oscillator2 := startOsc now (oscillator2 v);
     filterType := filterType v; filterFrequency := filterFrequency v;
     filterQ := filterQ v; gainNode := gainNode v |}.

(** [VocalVoice.stop]: fade the gain to 0 over [releaseTime], and stop
    the oscillators when the fade ends. *)
Definition stop (now : Q) (v : VocalVoice) : VocalVoice :=
  {| midiNote := midiNote v; voiceType := voiceType v;
     oscillator1 := stopOsc (now + releaseTime) (oscillator1 v);
     oscillator2 := stopOsc (now + releaseTime) (oscillator2 v);
     filterType := filterType v; filterFrequency := filterFrequency v;
     filterQ := filterQ v;
     gainNode :=
       schedule (gainNode v)
         [cancelScheduledValues now;
          setValueAtTime (value (gainNode v)) now;
          linearRampToValueAtTime 0 (now + releaseTime)] |}.

Inductive ContextState : Type := suspended | running | closed.

(** The engine.  [released] is not a field of the class: it lists the
    voices that [stopAll] has stopped and dropped from the map (their
    nodes stay in the audio graph until the oscillators stop), oldest
    first. *)
Record VocalAudioEngine : Type := {
  audioContext : option ContextState;
  masterGain : option AudioParam;
  currentVoices : gmap string VocalVoice;
  isInitialized : bool;
  released : list VocalVoice
}.

(** [new VocalAudioEngine()] *)
Definition audioEngine : VocalAudioEngine :=
  {| audioContext := None; masterGain := None; currentVoices := ∅;
     isInitialized := false; released := [] |}.

Inductive Completion : Type := Returned | Threw.

(** What the platform does when [initialize] asks for an audio context:
    the constructor throws, or the context comes up running, or it comes
    up suspended and [resume] then succeeds or rejects. *)
Inductive Platform : Type :=
| ContextFails
| ContextRunning
| ContextSuspended (resumeOk : bool).

Definition initialize (pf : Platform) (now : Q) (e : VocalAudioEngine)
  : Completion * VocalAudioEngine :=
  if isInitialized e then (Returned, e) else
  match pf with
  | ContextFails => (Threw, e)
  | ContextRunning =>
      (Returned,
       {| audioContext := Some running;
          masterGain := Some (schedule {| value := 1; calls := [] |}
                                       [setValueAtTime 0.5 now]);
          currentVoices := currentVoices e;
          isInitialized := true; released := released e |})
  | ContextSuspended resumeOk =>
      (if resumeOk then Returned else Threw,
       {| audioContext := Some (if resumeOk then running else suspended);
          masterGain := Some (schedule {| value := 1; calls := [] |}
                                       [setValueAtTime 0.5 now]);
          currentVoices := currentVoices e;
          isInitialized := true; released := released e |})
  end.

(** [stopAll]: stop every current voice, then clear the map. *)
Definition stopAll (now : Q) (e : VocalAudioEngine) : VocalAudioEngine :=
  {| audioContext := audioContext e; masterGain := masterGain e;
     currentVoices := ∅;
     isInitialized := isInitialized e;
     released := released e ++ (stop now <$> (map_to_list (currentVoices e)).*2) |}.

(** [playChord] from [this.stopAll()] on: one synchronous block. *)
Definition playVoices (now : Q) (soprano alto tenor bass : Z)
           (e : VocalAudioEngine) : VocalAudioEngine :=
  let e1 := stopAll now e in
  let voices :=
    <["bass" := newVocalVoice now bass "bass"]>
    (<["tenor" := newVocalVoice now tenor "tenor"]>
     (<["alto" := newVocalVoice now alto "alto"]>
      (<["soprano" := newVocalVoice now soprano "soprano"]>
       (currentVoices e1)))) in
  {| audioContext := audioContext e1; masterGain := masterGain e1;
     currentVoices := start now <$> voices;
     isInitialized := isInitialized e1; released := released e1 |}.

(** [playChord]: [initNow] is the clock when [initialize] runs, [now]
    the clock when the rest of the body runs. *)
Definition playChord (pf : Platform) (initNow now : Q)
           (soprano alto tenor bass : Z) (e : VocalAudioEngine)
  : Completion * VocalAudioEngine :=
  let '(c, e1) :=
    if isInitialized e then (Returned, e) else initialize pf initNow e in
  match c with
  | Threw => (Threw, e1)
  | Returned => (Returned, playVoices now soprano alto tenor bass e1)
  end.

(** [setMasterVolume] *)
Definition setMasterVolume (now : Q) (volume : Q) (e : VocalAudioEngine)
  : VocalAudioEngine :=
  match masterGain e with
  | Some g =>
      if isInitialized e then
        let clampedVolume := JS.clamp01 volume in
        {| audioContext := audioContext e;
           masterGain :=
             Some (schedule g
                     [cancelScheduledValues now;
                      setValueAtTime (value g) now;
                      linearRampToValueAtTime clampedVolume (now + transitionTime)]);
           currentVoices := currentVoices e;
           isInitialized := isInitialized e; released := released e |}
      else e
  | None => e
  end.

(** [getMasterVolume] *)
Definition getMasterVolume (e : VocalAudioEngine) : Q :=
  match masterGain e with
  | Some g => if isInitialized e then value g else 0.5
  | None => 0.5
  end.

(** [destroy] *)
Definition destroy (now : Q) (e : VocalAudioEngine) : VocalAudioEngine :=
  let e1 := stopAll now e in
  {| audioContext :=
       match audioContext e1 with
       | Some _ => Some closed
       | None => None
       end;
     masterGain := masterGain e1; currentVoices := currentVoices e1;
     isInitialized := isInitialized e1; released := released e1 |}.

(** The rendering thread brings the values the gain parameters report
    up to date. *)
Definition render (master : Q) (perVoice : string -> Q) (e : VocalAudioEngine)
  : VocalAudioEngine :=
  {| audioContext := audioContext e;
     masterGain := (fun g => {| value := master; calls := calls g |}) <$> masterGain e;
     currentVoices :=
       (fun v =>
          {| midiNote := midiNote v; voiceType := voiceType v;
             oscillator1 := oscillator1 v; oscillator2 := oscillator2 v;
             filterType := filterType v; filterFrequency := filterFrequency v;
             filterQ := filterQ v;
             gainNode := {| value := perVoice (voiceType v);
                            calls := calls (gainNode v) |} |})
       <$> currentVoices e;
     isInitialized := isInitialized e; released := released e |}.

(** The engine's atomic steps, as the event loop can interleave them:
    a [playChord] call that has to wait for [resume] is an [Initialize]
    step followed, possibly after other steps, by a [PlayVoices] step. *)
Inductive Step : Type :=
| Initialize (pf : Platform) (now : Q)
| PlayVoices (now : Q) (soprano alto tenor bass : Z)
| PlayChord (pf : Platform) (initNow now : Q) (soprano alto tenor bass : Z)
| StopAll (now : Q)
| SetMasterVolume (now volume : Q)
| Destroy (now : Q)
| Render (master : Q) (perVoice : string -> Q).

Definition step (e : VocalAudioEngine) (s : Step) : VocalAudioEngine :=
  match s with
  | Initialize pf now => snd (initialize pf now e)
  | PlayVoices now s a t b => playVoices now s a t b e
  | PlayChord pf initNow now s a t b => snd (playChord pf initNow now s a t b e)
  | StopAll now => stopAll now e
  | SetMasterVolume now volume => setMasterVolume now volume e
  | Destroy now => destroy now e
  | Render master perVoice => render master perVoice e
  end.

Definition run (steps : list Step) : VocalAudioEngine :=
  fold_left step steps audioEngine.

(** The four parts. *)
Definition satb : gset string := {["soprano"; "alto"; "tenor"; "bass"]}.


(** An initialized engine has its master gain. *)
Definition gainInv (e : VocalAudioEngine) : Prop :=
  isInitialized e = true -> is_Some (masterGain e).


(** A voice that fades out from [t]: its gain is ramped from its present
    value to 0 over the release time, and its oscillators stop only when
    the ramp ends. *)
Definition fades (t : Q) (v : VocalVoice) : Prop :=
  exists earlier held,
    calls (gainNode v)
    = earlier ++ [cancelScheduledValues t; setValueAtTime held t;
                  linearRampToValueAtTime 0 (t + releaseTime)] /\
    stopTime (oscillator1 v) = Some (t + releaseTime)%Q /\
    stopTime (oscillator2 v) = Some (t + releaseTime)%Q /\
    (t < t + releaseTime)%Q.

End Audio.

(** ** The harmonizer hook (hooks/useHarmonizer.ts) *)

Module Harmonizer.

(** Modelled from the spec: the declarations of types/harmonizer.ts are
    not among the sources.  A harmony chord is four MIDI notes tagged
    soprano, alto, tenor and bass; the code reads a note's [midiNote]
    and the fields of sequences and states that appear below. *)
Record HarmonizerNote : Type := { midiNote : Z }.

Record HarmonyChord : Type := {
  soprano : HarmonizerNote;
  alto : HarmonizerNote;
  tenor : HarmonizerNote;
  bass : HarmonizerNote
}.

Record MelodyNote : Type := {
  melodyMidiNote : Z;
  noteName : string;
  timestamp : Z
}.

Record HarmonySequence : Type := {
  id : string;
  title : string;
  melody : list MelodyNote;
  harmonies : list HarmonyChord;
  createdAt : Z
}.

Record HarmonizerState : Type := {
  isLoading : bool;
  isReady : bool;
  error : option string;
  currentSequence : option HarmonySequence;
  isPlaying : bool
}.

(** The hook's store.  [workerRef] holds, for a live worker, the notes
    posted to it so far (oldest first; [None] inside is [undefined]). *)
Record Hook : Type := {
  state : HarmonizerState;
  isRealTimeMode : bool;
  currentHarmony : option HarmonyChord;
  workerRef : option (list (option Z));
  sequenceRef : option HarmonySequence
}.

(** [useHarmonizer]'s initial store. *)
Definition initial : Hook :=
  {| state := {| isLoading := true; isReady := false; error := None;
                 currentSequence := None; isPlaying := false |};
     isRealTimeMode := false;
     currentHarmony := None;
     workerRef := None;
     sequenceRef := None |}.

Definition setCurrentHarmony (c : option HarmonyChord) (h : Hook) : Hook :=
  {| state := state h; isRealTimeMode := isRealTimeMode h;
     currentHarmony := c; workerRef := workerRef h;
     sequenceRef := sequenceRef h |}.

Definition setSequence (s : HarmonySequence) (h : Hook) : Hook :=
  {| state := {| isLoading := isLoading (state h); isReady := isReady (state h);
                 error := error (state h); currentSequence := Some s;
                 isPlaying := isPlaying (state h) |};
     isRealTimeMode := isRealTimeMode h;
     currentHarmony := currentHarmony h; workerRef := workerRef h;
     sequenceRef := Some s |}.

Definition addHarmony (newChord : HarmonyChord) (s : HarmonySequence)
  : HarmonySequence :=
  {| id := id s; title := title s; melody := melody s;
     harmonies := harmonies s ++ [newChord]; createdAt := createdAt s |}.

(** [handleHarmonyReceived].  The second component lists the chords
    handed to [setCurrentHarmony] by this call: each is a fresh object,
    so each re-runs the component's effect that depends on
    [currentHarmony] and plays the chord. *)
Definition handleHarmonyReceived (notes : list HarmonizerNote) (h : Hook)
  : Hook * list HarmonyChord :=
  if (length notes <? 4)%nat then (h, []) else
  match notes with
  | soprano :: alto :: tenor :: bass :: _ =>
      let newChord := {| soprano := soprano; alto := alto;
                         tenor := tenor; bass := bass |} in
      let h1 := setCurrentHarmony (Some newChord) h in
      (match negb (isRealTimeMode h), sequenceRef h with
       | true, Some s => setSequence (addHarmony newChord s) h1
       | _, _ => h1
       end, [newChord])
  | _ => (h, [])
  end.

(** A message from the worker. *)
Inductive WorkerMessage : Type :=
| Loaded
| Notes (notes : option (list HarmonizerNote))
| Other.

(** [worker.onmessage] *)
Definition onmessage (m : WorkerMessage) (h : Hook) : Hook * list HarmonyChord :=
  match m with
  | Loaded =>
      ({| state := {| isLoading := false; isReady := true; error := None;
                      currentSequence := currentSequence (state h);
                      isPlaying := isPlaying (state h) |};
          isRealTimeMode := isRealTimeMode h;
          currentHarmony := currentHarmony h; workerRef := workerRef h;
          sequenceRef := sequenceRef h |}, [])
  | Notes (Some notes) => handleHarmonyReceived notes h
  | _ => (h, [])
  end.

(** [harmonizeNoteRealTime]: throws unless the harmonizer is ready and
    the worker exists, else posts the note. *)
Definition harmonizeNoteRealTime (midiNote : option Z) (h : Hook)
  : Audio.Completion * Hook :=
  match isReady (state h), workerRef h with
  | true, Some posted =>
      (Audio.Returned,
       {| state := state h; isRealTimeMode := isRealTimeMode h;
          currentHarmony := currentHarmony h;
          workerRef := Some (posted ++ [midiNote]);
          sequenceRef := sequenceRef h |})
  | _, _ => (Audio.Threw, h)
  end.

(** The notes posted to the worker so far. *)
Definition posted (h : Hook) : list (option Z) :=
  match workerRef h with Some ms => ms | None => [] end.

End Harmonizer.

(** ** The quantizer as the specification words it *)

Module Spec.

(** A natural note: a white key, whatever its octave. *)
Definition isNatural (n : Z) : bool :=
  existsb (Z.eqb (n mod 12)) [0; 2; 4; 5; 7; 9; 11].

(** "the 15 natural notes from the 4th to the 5th octave inclusive, in
    ascending MIDI order": the naturals from C4 = 60 upwards. *)
Definition scale : list Z :=
  firstn 15 (List.filter isNatural (map (fun k => 60 + Z.of_nat k) (seq 0 36))).

(** "index = floor(pitchPosition x 14), clamped to [0,14]" *)
Definition index (pitchPosition : Q) : Z :=
  Z.max 0 (Z.min 14 (Qfloor (pitchPosition * 14))).

Definition quantize (pitchPosition : Q) : option Z :=
  nth_error scale (Z.to_nat (index pitchPosition)).

End Spec.

(** ** The hand tracker component *)

Module Tracker.

(** *** Pitch quantizer *)

(** Semitone offsets from C of the white keys. *)
Definition whiteKeyPattern : list Z := [0; 2; 4; 5; 7; 9; 11].

(** The inner loop of [pitchToMidi] for one octave. *)
Definition octaveKeys (octave : Z) : list Z :=
  let startIdx := if octave =? 4 then 0%nat else 0%nat in
  let endIdx := if octave =? 5 then 2%nat else 6%nat in
  map (fun noteIdx => (octave + 1) * 12 + nth noteIdx whiteKeyPattern 0)
      (JS.upto startIdx endIdx).

(** [whiteKeys] after the outer loop [for (octave = 4; octave <= 5; ...)]. *)
Definition whiteKeys : list Z := octaveKeys 4 ++ octaveKeys 5.

(** [Math.floor(pitch * (whiteKeys.length - 1))], the product taken
    exactly. *)
Definition keyIndex (pitch : Q) : Z :=
  Qfloor (pitch * inject_Z (Z.of_nat (length whiteKeys) - 1)).

(** [pitchToMidi]: [None] stands for [undefined]. *)
Definition pitchToMidi (pitch : Q) : option Z :=
  JS.index whiteKeys (keyIndex pitch).

(** [keyIndex] when the product is rounded to a representable number
    by [round] before [Math.floor] is taken. *)
Definition keyIndexRounded (round : Q -> Q) (pitch : Q) : Z :=
  Qfloor (round (pitch * inject_Z (Z.of_nat (length whiteKeys) - 1))%Q).

(** [pitchToMidi] on binary64 numbers, as the code computes it: the
    product [pitch * (whiteKeys.length - 1)] is rounded to binary64, and
    [Math.floor] is taken of the rounded product. *)
Module Double.

Definition keyIndex (pitch : Q) : Z := keyIndexRounded JS.round64 pitch.

Definition pitchToMidi (pitch : Q) : option Z :=
  JS.index whiteKeys (keyIndex pitch).

End Double.

(** *** Gesture classifier *)

Module Landmark.
Record t : Type := { x : Q; y : Q; z : option Q }.
End Landmark.

Inductive Vowel : Type := A | O | NONE.

Definition Vowel_eqb (a b : Vowel) : bool :=
  match a, b with
  | A, A | O, O | NONE, NONE => true
  | _, _ => false
  end.

(** A hand's landmark array; [None] is an entry that is missing. *)
Definition Landmarks : Type := list (option Landmark.t).

(** The four [{ tip, pip }] objects of [detectVowel]. *)
Definition fingers (landmarks : Landmarks)
  : list (option Landmark.t * option Landmark.t) :=
  [ (JS.at_ landmarks 8,  JS.at_ landmarks 6);      (* Index *)
    (JS.at_ landmarks 12, JS.at_ landmarks 10);     (* Middle *)
    (JS.at_ landmarks 16, JS.at_ landmarks 14);     (* Ring *)
    (JS.at_ landmarks 20, JS.at_ landmarks 18) ].   (* Pinky *)

(** [fingers.filter(finger => finger.tip && finger.pip)] *)
Definition validFingers (landmarks : Landmarks)
  : list (Landmark.t * Landmark.t) :=
  omap (fun finger =>
          match finger with
          | (Some tip, Some pip) => Some (tip, pip)
          | _ => None
          end) (fingers landmarks).

Definition extendedFingers (landmarks : Landmarks) : nat :=
  length (List.filter (fun finger => JS.lt (Landmark.y (fst finger)) (Landmark.y (snd finger)))
                      (validFingers landmarks)).

Definition foldedFingers (landmarks : Landmarks) : nat :=
  length (List.filter (fun finger => JS.lt (Landmark.y (snd finger)) (Landmark.y (fst finger)))
                      (validFingers landmarks)).

(** [detectVowel]; the argument [None] is a null [landmarks]. *)
Definition detectVowel (landmarks : option Landmarks) : Vowel :=
  match landmarks with
  | None => NONE
  | Some landmarks =>
      if (length landmarks <? 21)%nat then NONE
      else if (length (validFingers landmarks) <? 3)%nat then NONE
      else if (3 <=? extendedFingers landmarks)%nat then A
      else if (3 <=? foldedFingers landmarks)%nat then O
      else NONE
  end.

(** *** Component state *)

Inductive HandPreference : Type := left | right.

Module HandPosition.
Record t : Type := { x : Q; y : Q; detected : bool; vowel : Vowel }.
End HandPosition.

Module VolumeHand.
Record t : Type := { y : Q; detected : bool }.
End VolumeHand.

Record HandResults : Type := {
  multiHandLandmarks : option (list Landmarks);
  multiHandedness : option (list string)
}.

(** The state of [HandGestureTracker] that the control path uses.
    [lastPlayedNoteRef]: [None] is null, [Some None] is undefined. *)
Record Component : Type := {
  handPreference : option HandPreference;
  controlHand : HandPosition.t;
  volumeHand : VolumeHand.t;
  lastPlayedNoteRef : option (option Z)
}.

Definition mount (initialHandPreference : option HandPreference) : Component :=
  {| handPreference := initialHandPreference;
     controlHand := {| HandPosition.x := 0.5; HandPosition.y := 0.5;
                       HandPosition.detected := false;
                       HandPosition.vowel := NONE |};
     volumeHand := {| VolumeHand.y := 0.5; VolumeHand.detected := false |};
     lastPlayedNoteRef := None |}.

Definition getPitchFromY (y : Q) : Q := JS.clamp01 (1 - y).
Definition getVolumeFromY (y : Q) : Q := JS.clamp01 (1 - y).

(** *** Role resolution and the per-frame update ([onResults]) *)

(** [results.multiHandedness?.[handIndex]?.label || 'Unknown'] *)
Definition handednessOf (results : HandResults) (handIndex : nat) : string :=
  match multiHandedness results with
  | Some hs =>
      match nth_error hs handIndex with
      | Some label => if String.eqb label "" then "Unknown" else label
      | None => "Unknown"
      end
  | None => "Unknown"
  end.

Definition prefIs (p : option HandPreference) (q : HandPreference) : bool :=
  match p, q with
  | Some left, left | Some right, right => true
  | _, _ => false
  end.

Definition isControlHand (handPreference : option HandPreference)
           (handedness : string) : bool :=
  let isRightHand := String.eqb handedness "Right" in
  let isLeftHand := String.eqb handedness "Left" in
  (prefIs handPreference right && isLeftHand)
  || (prefIs handPreference left && isRightHand).

Definition isVolumeHand (handPreference : option HandPreference)
           (handedness : string) : bool :=
  let isRightHand := String.eqb handedness "Right" in
  let isLeftHand := String.eqb handedness "Left" in
  (prefIs handPreference right && isRightHand)
  || (prefIs handPreference left && isLeftHand).

(** The two locals [controlHandData] and [volumeHandData]. *)
Definition HandData : Type := (option HandPosition.t * option VolumeHand.t)%type.

(** The "Store hand data" part of the [forEach] callback (the drawing
    before it is in [Render.drawn]). *)
Definition storeHand (handPreference : option HandPreference)
           (results : HandResults) (data : HandData)
           (handIndex : nat) (landmarks : Landmarks) : HandData :=
  let handedness := handednessOf results handIndex in
  if isControlHand handPreference handedness && (8 <? length landmarks)%nat then
    match JS.at_ landmarks 8 with
    | Some indexTip =>
        (Some {| HandPosition.x := Landmark.x indexTip;
                 HandPosition.y := Landmark.y indexTip;
                 HandPosition.detected := true;
                 HandPosition.vowel := detectVowel (Some landmarks) |},
         snd data)
    | None => data
    end
  else if isVolumeHand handPreference handedness && (8 <? length landmarks)%nat then
    match JS.at_ landmarks 8 with
    | Some indexTip =>
        (fst data,
         Some {| VolumeHand.y := Landmark.y indexTip;
                 VolumeHand.detected := true |})
    | None => data
    end
  else data.

(** [multiHandLandmarks.forEach(...)], starting at index [handIndex]. *)
Fixpoint forEachHand (handPreference : option HandPreference)
         (results : HandResults) (handIndex : nat)
         (hands : list Landmarks) (data : HandData) : HandData :=
  match hands with
  | [] => data
  | landmarks :: rest =>
      forEachHand handPreference results (S handIndex) rest
                  (storeHand handPreference results data handIndex landmarks)
  end.

(** [prev => ({ ...prev, detected: false, vowel: 'NONE' })] *)
Definition controlLost (prev : HandPosition.t) : HandPosition.t :=
  {| HandPosition.x := HandPosition.x prev;
     HandPosition.y := HandPosition.y prev;
     HandPosition.detected := false;
     HandPosition.vowel := NONE |}.

(** [prev => ({ ...prev, detected: false })] *)
Definition volumeLost (prev : VolumeHand.t) : VolumeHand.t :=
  {| VolumeHand.y := VolumeHand.y prev; VolumeHand.detected := false |}.

Definition setHands (ch : HandPosition.t) (vh : VolumeHand.t) (c : Component)
  : Component :=
  {| handPreference := handPreference c; controlHand := ch;
     volumeHand := vh; lastPlayedNoteRef := lastPlayedNoteRef c |}.

(** [onResults] when its drawing completes ([Render.onResults] has the
    drawing, which can throw).  [mounted] says whether the canvas and
    video elements exist; without them the callback returns at once. *)
Definition onResults (mounted : bool) (results : HandResults) (c : Component)
  : Component :=
  if negb mounted then c else
  match multiHandLandmarks results with
  | Some ((_ :: _) as hands) =>
      let '(controlHandData, volumeHandData) :=
        forEachHand (handPreference c) results 0 hands (None, None) in
      setHands
        (match controlHandData with
         | Some d => d
         | None => controlLost (controlHand c)
         end)
        (match volumeHandData with
         | Some d => d
         | None => volumeLost (volumeHand c)
         end)
        c
  | _ => setHands (controlLost (controlHand c)) (volumeLost (volumeHand c)) c
  end.

(** *** Values derived on each render, and the effects *)

Definition currentPitch (c : Component) : Q :=
  if HandPosition.detected (controlHand c)
  then getPitchFromY (HandPosition.y (controlHand c)) else 0.

Definition currentVolume (c : Component) : Q :=
  if VolumeHand.detected (volumeHand c)
  then getVolumeFromY (VolumeHand.y (volumeHand c)) else 0.5.

(** "Apply volume control from volume hand" *)
Definition targetVolume (c : Component) : Q :=
  if VolumeHand.detected (volumeHand c) then currentVolume c else 0.5.

Definition volumeEffect (now : Q) (c : Component) (e : Audio.VocalAudioEngine)
  : Audio.VocalAudioEngine :=
  Audio.setMasterVolume now (targetVolume c) e.

(** "Play audio when harmony changes" *)
Definition harmonyEffect (pf : Audio.Platform) (initNow now : Q)
           (currentHarmony : option Harmonizer.HarmonyChord)
           (e : Audio.VocalAudioEngine) : Audio.VocalAudioEngine :=
  match currentHarmony with
  | Some ch =>
      snd (Audio.playChord pf initNow now
             (Harmonizer.midiNote (Harmonizer.soprano ch))
             (Harmonizer.midiNote (Harmonizer.alto ch))
             (Harmonizer.midiNote (Harmonizer.tenor ch))
             (Harmonizer.midiNote (Harmonizer.bass ch)) e)
  | None => e
  end.

Definition setLastPlayedNote (n : option (option Z)) (c : Component) : Component :=
  {| handPreference := handPreference c; controlHand := controlHand c;
     volumeHand := volumeHand c; lastPlayedNoteRef := n |}.

Definition System : Type :=
  (Component * Harmonizer.Hook * Audio.VocalAudioEngine)%type.

(** "Trigger harmonization when control hand position changes" *)
Definition harmonizationEffect (now : Q) (s : System) : System :=
  let '(c, h, e) := s in
  let harmonizerReady := Harmonizer.isReady (Harmonizer.state h) in
  let active := negb (Vowel_eqb (HandPosition.vowel (controlHand c)) NONE) in
  if HandPosition.detected (controlHand c) && harmonizerReady && active then
    let currentMidiNote := pitchToMidi (currentPitch c) in
    if bool_decide (Some currentMidiNote = lastPlayedNoteRef c) then s
    else
      match Harmonizer.harmonizeNoteRealTime currentMidiNote h with
      | (Audio.Returned, h') => (setLastPlayedNote (Some currentMidiNote) c, h', e)
      | (Audio.Threw, h') => (c, h', e)
      end
  else if negb (HandPosition.detected (controlHand c)) || negb active then
    (setLastPlayedNote None c, h, Audio.stopAll now e)
  else s.

(** One frame of the control loop: the tracker's callback, then the
    effects that depend on the hands, each of them run whether or not
    its dependencies have changed ([Render.frame] runs the ones React
    runs, which are some of these). *)
Definition frame (now : Q) (mounted : bool) (results : HandResults) (s : System)
  : System :=
  let '(c, h, e) := s in
  let c1 := onResults mounted results c in
  harmonizationEffect now (c1, h, volumeEffect now c1 e).

(** A message from the harmonizer worker: the hook's handler, then the
    "Play audio when harmony changes" effect for each chord the handler
    has set. *)
Definition onWorkerMessage (pf : Audio.Platform) (initNow now : Q)
           (m : Harmonizer.WorkerMessage) (s : System) : System :=
  let '(c, h, e) := s in
  let '(h', chords) := Harmonizer.onmessage m h in
  (c, h',
   fold_left (fun e ch => harmonyEffect pf initNow now (Some ch) e) chords e).


End Tracker.

(** ** The classifier's vocabulary, as the specification words it *)

Module GestureSpec.
Import Tracker.

(** The (tip, pip) landmark indices of index, middle, ring and pinky. *)
Definition fingerPairs : list (nat * nat) :=
  [(8, 6); (12, 10); (16, 14); (20, 18)]%nat.

(** The tip and pip of a pair, when neither is missing. *)
Definition pairOf (landmarks : Landmarks) (f : nat * nat)
  : option (Landmark.t * Landmark.t) :=
  match nth_error landmarks (fst f), nth_error landmarks (snd f) with
  | Some (Some tip), Some (Some pip) => Some (tip, pip)
  | _, _ => None
  end.

Definition valid (landmarks : Landmarks) (f : nat * nat) : bool :=
  match pairOf landmarks f with Some _ => true | None => false end.

(** tip.y < pip.y *)
Definition extended (landmarks : Landmarks) (f : nat * nat) : bool :=
  match pairOf landmarks f with
  | Some (tip, pip) =>
      if Qlt_le_dec (Landmark.y tip) (Landmark.y pip) then true else false
  | None => false
  end.

(** tip.y > pip.y *)
Definition folded (landmarks : Landmarks) (f : nat * nat) : bool :=
  match pairOf landmarks f with
  | Some (tip, pip) =>
      if Qlt_le_dec (Landmark.y pip) (Landmark.y tip) then true else false
  | None => false
  end.

Definition count (P : nat * nat -> bool) : nat :=
  length (List.filter P fingerPairs).

Definition validPairs (landmarks : Landmarks) : nat := count (valid landmarks).
Definition extendedPairs (landmarks : Landmarks) : nat := count (extended landmarks).
Definition foldedPairs (landmarks : Landmarks) : nat := count (folded landmarks).

(** A synthetic hand: 21 landmarks with the given heights; the heights
    of the four tips and of the four pips are what matters. *)
Definition hand (tips pips : Q * Q * Q * Q) : Landmarks :=
  let '(t1, t2, t3, t4) := tips in
  let '(p1, p2, p3, p4) := pips in
  map (fun h => Some {| Landmark.x := 0.5; Landmark.y := h; Landmark.z := None |})
      [0.9; 0.9; 0.9; 0.9; 0.9; 0.9; p1; 0.9; t1; 0.9; p2; 0.9; t2; 0.9;
       p3; 0.9; t3; 0.9; p4; 0.9; t4]%Q.

(** A hand that can take the given role in this frame: the label
    assigns it the role and its index fingertip (landmark 8) is there. *)
Definition present (role : option HandPreference -> string -> bool)
           (handPreference : option HandPreference) (results : HandResults)
  : Prop :=
  exists handIndex landmarks hands,
    multiHandLandmarks results = Some hands /\
    nth_error hands handIndex = Some landmarks /\
    role handPreference (handednessOf results handIndex) = true /\
    JS.at_ landmarks 8 <> None.

(** A frame without hands, after one with the volume hand at height 0.1
    and the control hand at height 0.3. *)
Definition bothHandsSeen : Component :=
  {| handPreference := Some right;
     controlHand := {| HandPosition.x := 0.5; HandPosition.y := 0.3;
                       HandPosition.detected := true; HandPosition.vowel := A |};
     volumeHand := {| VolumeHand.y := 0.1; VolumeHand.detected := true |};
     lastPlayedNoteRef := None |}.

Definition noHands : HandResults :=
  {| multiHandLandmarks := Some []; multiHandedness := None |}.


(** The engine's steps up to a sounding chord: C major, then the
    rendering thread has taken the gains to their targets. *)
Definition playing : list Audio.Step :=
  [Audio.PlayChord Audio.ContextRunning 0 0 60 64 67 72;
   Audio.Render 0.5 (fun _ => 0.25%Q)].


(** The hook once the worker has reported [Loaded]. *)
Definition readyHook : Harmonizer.Hook :=
  {| Harmonizer.state :=
       {| Harmonizer.isLoading := false; Harmonizer.isReady := true;
          Harmonizer.error := None; Harmonizer.currentSequence := None;
          Harmonizer.isPlaying := false |};
     Harmonizer.isRealTimeMode := true;
     Harmonizer.currentHarmony := None;
     Harmonizer.workerRef := Some [];
     Harmonizer.sequenceRef := None |}.

Definition openHand : Landmarks := hand (0.2, 0.2, 0.2, 0.2)%Q (0.4, 0.4, 0.4, 0.4)%Q.
Definition closedHand : Landmarks := hand (0.6, 0.6, 0.6, 0.6)%Q (0.4, 0.4, 0.4, 0.4)%Q.
Definition splitHand : Landmarks := hand (0.2, 0.2, 0.6, 0.6)%Q (0.4, 0.4, 0.4, 0.4)%Q.

(** An open hand low in the picture, seen as 'Left'. *)
Definition lowOpenHand : HandResults :=
  {| multiHandLandmarks :=
       Some [hand (0.95, 0.95, 0.95, 0.95)%Q (0.99, 0.99, 0.99, 0.99)%Q];
     multiHandedness := Some ["Left"] |}.

(** The session of the end-to-end scenario: the control hand appears low
    and open, the worker answers with C major, the hand goes away. *)
Definition appeared : System :=
  frame 0 true lowOpenHand (mount (Some right), readyHook, Audio.audioEngine).

Definition answered : System :=
  onWorkerMessage Audio.ContextRunning 1 1
    (Harmonizer.Notes
       (Some [ {| Harmonizer.midiNote := 60 |}; {| Harmonizer.midiNote := 64 |};
               {| Harmonizer.midiNote := 67 |}; {| Harmonizer.midiNote := 72 |} ]))
    appeared.

Definition vanished : System := frame 2 true noHands answered.

End GestureSpec.

(** ** The rest of the harmonizer hook *)

Module Sequences.
Import Harmonizer.

(** [Date.now().toString()] *)
Definition toString (n : Z) : string := NilZero.string_of_int (Z.to_int n).

Definition setIsPlaying (b : bool) (h : Hook) : Hook :=
  {| state := {| isLoading := isLoading (state h); isReady := isReady (state h);
                 error := error (state h);
                 currentSequence := currentSequence (state h);
                 isPlaying := b |};
     isRealTimeMode := isRealTimeMode h;
     currentHarmony := currentHarmony h; workerRef := workerRef h;
     sequenceRef := sequenceRef h |}.

(** The effect that creates the worker.  [failure] is [None] when
    [new Worker] succeeds (a new worker has been posted nothing), and
    else the message the [catch] block reports. *)
Definition initializeHarmonizer (failure : option string) (h : Hook) : Hook :=
  match failure with
  | None =>
      {| state := {| isLoading := true; isReady := isReady (state h);
                     error := None;
                     currentSequence := currentSequence (state h);
                     isPlaying := isPlaying (state h) |};
         isRealTimeMode := isRealTimeMode h;
         currentHarmony := currentHarmony h; workerRef := Some [];
         sequenceRef := sequenceRef h |}
  | Some message =>
      {| state := {| isLoading := false; isReady := false;
                     error := Some message;
                     currentSequence := currentSequence (state h);
                     isPlaying := isPlaying (state h) |};
         isRealTimeMode := isRealTimeMode h;
         currentHarmony := currentHarmony h; workerRef := workerRef h;
         sequenceRef := sequenceRef h |}
  end.

(** [worker.onerror] *)
Definition onerror (message : string) (h : Hook) : Hook :=
  {| state := {| isLoading := false; isReady := false;
                 error := Some ("Harmonizer failed to load: " ++ message)%string;
                 currentSequence := currentSequence (state h);
                 isPlaying := isPlaying (state h) |};
     isRealTimeMode := isRealTimeMode h;
     currentHarmony := currentHarmony h; workerRef := workerRef h;
     sequenceRef := sequenceRef h |}.

(** [startNewSequence]: [now] is what [Date.now()] gives and [created]
    what [new Date()] gives; [title] defaults to 'New Harmony'.  Returns
    the new sequence's id. *)
Definition startNewSequence (now created : Z) (title : option string) (h : Hook)
  : string * Hook :=
  let newSequence :=
    {| id := toString now;
       title := match title with Some t => t | None => "New Harmony" end;
       melody := []; harmonies := []; createdAt := created |} in
  (id newSequence, setSequence newSequence h).

Definition addMelody (note : MelodyNote) (s : HarmonySequence) : HarmonySequence :=
  {| id := id s; title := title s; melody := melody s ++ [note];
     harmonies := harmonies s; createdAt := createdAt s |}.

Definition postMessage (note : option Z) (h : Hook) : Hook :=
  match workerRef h with
  | Some posted =>
      {| state := state h; isRealTimeMode := isRealTimeMode h;
         currentHarmony := currentHarmony h;
         workerRef := Some (posted ++ [note]);
         sequenceRef := sequenceRef h |}
  | None => h
  end.

(** [clearSequence] *)
Definition clearSequence (h : Hook) : Hook :=
  {| state := {| isLoading := isLoading (state h); isReady := isReady (state h);
                 error := error (state h); currentSequence := None;
                 isPlaying := isPlaying (state h) |};
     isRealTimeMode := isRealTimeMode h;
     currentHarmony := currentHarmony h; workerRef := workerRef h;
     sequenceRef := None |}.

(** [toggleRealTimeMode]: entering real-time mode clears the harmony. *)
Definition toggleRealTimeMode (h : Hook) : Hook :=
  {| state := state h; isRealTimeMode := negb (isRealTimeMode h);
     currentHarmony := if negb (isRealTimeMode h) then None else currentHarmony h;
     workerRef := workerRef h; sequenceRef := sequenceRef h |}.

(** [clearCurrentHarmony] *)
Definition clearCurrentHarmony (h : Hook) : Hook := setCurrentHarmony None h.

Section Names.

(** [midiToNoteName] comes from types/harmonizer.ts, which is not among
    the sources. *)
Variable midiToNoteName : Z -> string.

(** [harmonizeNote]: [now] is what [Date.now()] gives. *)
Definition harmonizeNote (now : Z) (midiNote : Z) (h : Hook)
  : Audio.Completion * Hook :=
  match isReady (state h), workerRef h with
  | true, Some _ =>
      let h1 :=
        match sequenceRef h with
        | Some s =>
            let melodyNote :=
              {| melodyMidiNote := midiNote;
                 noteName := midiToNoteName midiNote;
                 timestamp := now |} in
            setSequence (addMelody melodyNote s) h
        | None => h
        end in
      (Audio.Returned, postMessage (Some midiNote) h1)
  | _, _ => (Audio.Threw, h)
  end.

(** The [for] loop of [harmonizeMelody] from index [i] on, when nothing
    else touches the hook during its waits: [clock i] is what
    [Date.now()] gives when note [i] is harmonized. *)
Fixpoint harmonizeNotes (clock : nat -> Z) (i : nat) (melody : list Z) (h : Hook)
  : Audio.Completion * Hook :=
  match melody with
  | [] => (Audio.Returned, h)
  | note :: rest =>
      match harmonizeNote (clock i) note h with
      | (Audio.Returned, h1) => harmonizeNotes clock (S i) rest h1
      | (Audio.Threw, h1) => (Audio.Threw, h1)
      end
  end.

(** The melody notes the loop records for [melody], from index [i] on. *)
Fixpoint notesFrom (clock : nat -> Z) (i : nat) (melody : list Z) : list MelodyNote :=
  match melody with
  | [] => []
  | note :: rest =>
      {| melodyMidiNote := note; noteName := midiToNoteName note;
         timestamp := clock i |} :: notesFrom clock (S i) rest
  end.

(** [harmonizeMelody]; [title] defaults to 'AI Harmony'. *)
Definition harmonizeMelody (now created : Z) (clock : nat -> Z)
           (melody : list Z) (title : option string) (h : Hook)
  : Audio.Completion * Hook :=
  if negb (isReady (state h)) then (Audio.Threw, h) else
  let h1 := setIsPlaying true h in
  let h2 := snd (startNewSequence now created
                   (Some match title with Some t => t | None => "AI Harmony" end)
                   h1) in
  let '(c, h3) := harmonizeNotes clock 0 melody h2 in
  (c, setIsPlaying false h3).

(** What a caller can do to the hook. *)
Inductive Op : Type :=
| OnMessage (m : WorkerMessage)
| OnError (message : string)
| InitializeHarmonizer (failure : option string)
| StartNewSequence (now created : Z) (title : option string)
| HarmonizeNote (now midiNote : Z)
| HarmonizeMelody (now created : Z) (clock : nat -> Z) (melody : list Z)
                  (title : option string)
| ClearSequence
| HarmonizeNoteRealTime (midiNote : option Z)
| ToggleRealTimeMode
| ClearCurrentHarmony.

Definition apply (h : Hook) (o : Op) : Hook :=
  match o with
  | OnMessage m => fst (onmessage m h)
  | OnError message => onerror message h
  | InitializeHarmonizer failure => initializeHarmonizer failure h
  | StartNewSequence now created title => snd (startNewSequence now created title h)
  | HarmonizeNote now midiNote => snd (harmonizeNote now midiNote h)
  | HarmonizeMelody now created clock melody title =>
      snd (harmonizeMelody now created clock melody title h)
  | ClearSequence => clearSequence h
  | HarmonizeNoteRealTime midiNote => snd (harmonizeNoteRealTime midiNote h)
  | ToggleRealTimeMode => toggleRealTimeMode h
  | ClearCurrentHarmony => clearCurrentHarmony h
  end.

Definition session (ops : list Op) : Hook := fold_left apply ops initial.

End Names.

(** [getStats] *)
Record Stats : Type := {
  totalNotes : nat;
  totalChords : nat;
  duration : Q;
  averageNoteHeight : Q
}.

Definition sumNotes (ms : list MelodyNote) : Z :=
  fold_left (fun sum note => sum + melodyMidiNote note) ms 0.

Definition getStats (h : Hook) : option Stats :=
  match currentSequence (state h) with
  | None => None
  | Some sequence =>
      Some {| totalNotes := length (melody sequence);
              totalChords := length (harmonies sequence);
              duration :=
                match melody sequence with
                | first :: _ =>
                    (inject_Z (timestamp (List.last (melody sequence) first)
                               - timestamp first) / 1000)%Q
                | [] => 0%Q
                end;
              averageNoteHeight :=
                match melody sequence with
                | _ :: _ =>
                    (inject_Z (sumNotes (melody sequence))
                     / inject_Z (Z.of_nat (length (melody sequence))))%Q
                | [] => 0%Q
                end |}
  end.

(** The ref and the state hold the same sequence. *)
Definition inSync (h : Hook) : Prop := sequenceRef h = currentSequence (state h).

End Sequences.

(** ** More of the tracker component *)

Module Session.
Import Tracker.

(** "Enable real-time mode automatically when harmonizer is ready" *)
Definition realTimeEffect (h : Harmonizer.Hook) : Harmonizer.Hook :=
  if Harmonizer.isReady (Harmonizer.state h) && negb (Harmonizer.isRealTimeMode h)
  then Sequences.toggleRealTimeMode h else h.

(** Consecutive frames, each with the audio clock at which it is
    handled. *)
Definition frames (fs : list (Q * HandResults)) (s : System) : System :=
  fold_left (fun s f => frame (fst f) true (snd f) s) fs s.



(** A hand turned upside down in the picture. *)
Definition flipLandmark (l : Landmark.t) : Landmark.t :=
  {| Landmark.x := Landmark.x l; Landmark.y := 1 - Landmark.y l;
     Landmark.z := Landmark.z l |}.

Definition flip (landmarks : Landmarks) : Landmarks :=
  map (option_map flipLandmark) landmarks.

Definition swap (v : Vowel) : Vowel :=
  match v with A => O | O => A | NONE => NONE end.

(** The control data the [forEach] callback stores for a hand. *)
Definition controlData (landmarks : Landmarks) (indexTip : Landmark.t)
  : HandPosition.t :=
  {| HandPosition.x := Landmark.x indexTip; HandPosition.y := Landmark.y indexTip;
     HandPosition.detected := true;
     HandPosition.vowel := detectVowel (Some landmarks) |}.

(** A posted note that is a key of the scale. *)
Definition whiteNote (m : option Z) : Prop :=
  exists n, m = Some n /\ In n whiteKeys.


(** The hand at [handIndex] can take the control role. *)
Definition controls (handPreference : option HandPreference)
           (results : HandResults) (handIndex : nat) (landmarks : Landmarks) : Prop :=
  isControlHand handPreference (handednessOf results handIndex) = true /\
  JS.at_ landmarks 8 <> None.

End Session.

(** ** The callback with its drawing, and the effects as React runs them *)

Module Render.
Import Tracker.

(** An entry of a landmark array as JavaScript has it: a hole of a
    sparse array, an entry that is [undefined] or [null], or a
    landmark. *)
Inductive Entry : Type :=
| Hole
| Undefined
| Point (landmark : Landmark.t).

(** What [landmarks[i]] gives the code that tests it before use. *)
Definition entry (e : Entry) : option Landmark.t :=
  match e with
  | Point landmark => Some landmark
  | Hole | Undefined => None
  end.

(** The [results] object handed to [onResults]. *)
Record Results : Type := {
  landmarks : option (list (list Entry));
  handedness : option (list string)
}.

Definition handResults (r : Results) : HandResults :=
  {| multiHandLandmarks := option_map (map (map entry)) (landmarks r);
     multiHandedness := handedness r |}.

(** "Draw hand landmarks": [landmarks.forEach((landmark, index) => {
    const x = landmark.x * canvas.width; ...})] visits every entry but
    the holes and reads its [x]: at an entry that is [undefined] or
    [null] that is a TypeError.  [drawn] says the loop completes.  (The
    loop over the connections tests both end points first.) *)
Definition drawn (hand : list Entry) : bool :=
  forallb (fun e => match e with Undefined => false | _ => true end) hand.

(** Whether the drawing of some hand of the frame throws. *)
Definition throws (r : Results) : bool :=
  match landmarks r with
  | Some hands => negb (forallb drawn hands)
  | None => false
  end.

(** [onResults], drawing included.  The hands are drawn and stored one
    after the other, and the state setters are called after the last
    one: a TypeError while drawing leaves the callback before any of
    them is called. *)
Definition onResults (mounted : bool) (r : Results) (c : Component)
  : Audio.Completion * Component :=
  if mounted && throws r then (Audio.Threw, c)
  else (Audio.Returned, Tracker.onResults mounted (handResults r) c).

(** The dependencies of "Apply volume control from volume hand",
    [[volumeHand.detected, currentVolume]], differ between two
    renders. *)
Definition volumeDepsChanged (c c' : Component) : bool :=
  negb (Bool.eqb (VolumeHand.detected (volumeHand c))
                 (VolumeHand.detected (volumeHand c')))
  || negb (Qeq_bool (currentVolume c) (currentVolume c')).

(** The dependencies of "Trigger harmonization when control hand
    position changes", [[controlHand.detected, controlHand.vowel,
    currentPitch, harmonizerReady, harmonizeNoteRealTime, pitchToMidi]],
    differ between two renders; [harmonizeNoteRealTime] is a new
    function when [state.isReady] has changed, [pitchToMidi] is always
    the same one. *)
Definition harmonizationDepsChanged (c : Component) (h : Harmonizer.Hook)
           (c' : Component) (h' : Harmonizer.Hook) : bool :=
  negb (Bool.eqb (HandPosition.detected (controlHand c))
                 (HandPosition.detected (controlHand c')))
  || negb (Vowel_eqb (HandPosition.vowel (controlHand c))
                     (HandPosition.vowel (controlHand c')))
  || negb (Qeq_bool (currentPitch c) (currentPitch c'))
  || negb (Bool.eqb (Harmonizer.isReady (Harmonizer.state h))
                    (Harmonizer.isReady (Harmonizer.state h'))).

(** One frame as React runs it, from a state whose effects have run:
    the callback; when it has set the hands, a render, after which each
    effect runs if one of its dependencies differs from the render
    before, the volume effect first.  A callback that throws has set
    nothing. *)
Definition frame (now : Q) (mounted : bool) (r : Results) (s : System) : System :=
  let '(c, h, e) := s in
  match onResults mounted r c with
  | (Audio.Threw, _) => s
  | (Audio.Returned, c1) =>
      let e1 := if volumeDepsChanged c c1 then volumeEffect now c1 e else e in
      if harmonizationDepsChanged c h c1 h
      then harmonizationEffect now (c1, h, e1)
      else (c1, h, e1)
  end.

(** [toggleRealTimeMode] and the render after it: [isRealTimeMode] has
    changed, so [handleHarmonyReceived] is a new function, and the
    effect that depends on it is cleaned up (the worker is terminated)
    and run again (a new worker is created). *)
Definition toggleRealTimeMode (failure : option string) (h : Harmonizer.Hook)
  : Harmonizer.Hook :=
  Sequences.initializeHarmonizer failure (Sequences.toggleRealTimeMode h).

(** Results whose missing entries are holes. *)
Definition sparse (results : HandResults) : Results :=
  {| landmarks :=
       option_map (map (map (fun l => match l with
                                      | Some landmark => Point landmark
                                      | None => Hole
                                      end)))
                  (multiHandLandmarks results);
     handedness := multiHandedness results |}.

(** A frame without hands. *)
Definition noHands : Results := {| landmarks := Some []; handedness := None |}.

(** A closed hand labelled 'Left', then an open one labelled 'Left'. *)
Definition twoLeftHands : Results :=
  sparse {| multiHandLandmarks := Some [GestureSpec.closedHand; GestureSpec.openHand];
            multiHandedness := Some ["Left"; "Left"] |}.

(** An open hand without a label. *)
Definition unlabelledHand : Results :=
  sparse {| multiHandLandmarks := Some [GestureSpec.openHand];
            multiHandedness := None |}.

(** An open hand labelled 'Left' whose wrist entry is [undefined]. *)
Definition brokenHand : Results :=
  {| landmarks :=
       Some [Undefined :: map (fun l => match l with
                                        | Some landmark => Point landmark
                                        | None => Hole
                                        end) (tl GestureSpec.openHand)];
     handedness := Some ["Left"] |}.

(** The control hand appears low and open, and goes away; the worker's
    answer to the request arrives only then; one more frame without
    hands follows. *)
Definition requested : System :=
  frame 0 true (sparse GestureSpec.lowOpenHand)
        (mount (Some right), GestureSpec.readyHook, Audio.audioEngine).

Definition lost : System := frame 1 true noHands requested.

Definition late : System :=
  onWorkerMessage Audio.ContextRunning 2 2
    (Harmonizer.Notes
       (Some [ {| Harmonizer.midiNote := 60 |}; {| Harmonizer.midiNote := 64 |};
               {| Harmonizer.midiNote := 67 |}; {| Harmonizer.midiNote := 72 |} ]))
    lost.

End Render.

(** ** The older tracker component (its [detectVowel]) *)

Module Legacy.
Import Tracker.

(** [fingers.filter(finger => cmp(finger.tip.y, finger.pip.y)).length]
    without the filter for missing landmarks: reading [.y] of a missing
    tip or pip throws ([None]). *)
Fixpoint countFingers (cmp : Q -> Q -> bool)
         (fs : list (option Landmark.t * option Landmark.t)) : option nat :=
  match fs with
  | [] => Some 0%nat
  | (Some tip, Some pip) :: rest =>
      match countFingers cmp rest with
      | Some n => Some (if cmp (Landmark.y tip) (Landmark.y pip) then S n else n)
      | None => None
      end
  | _ :: _ => None
  end.

(** [detectVowel] of the older component; [None] is a TypeError. *)
Definition detectVowel (landmarks : option Landmarks) : option Vowel :=
  match landmarks with
  | None => Some NONE
  | Some landmarks =>
      if (length landmarks <? 21)%nat then Some NONE else
      match countFingers JS.lt (fingers landmarks) with
      | None => None
      | Some extendedFingers =>
          match countFingers (fun t p => JS.lt p t) (fingers landmarks) with
          | None => None
          | Some foldedFingers =>
              Some (if (3 <=? extendedFingers)%nat then A
                    else if (3 <=? foldedFingers)%nat then O
                    else NONE)
          end
      end
  end.

End Legacy.

(** ** What the engine keeps true *)

Module Kept.
Import Audio.

(** Every ramp asked of a gain ends within [0,1]. *)
Definition rampsInRange (g : AudioParam) : Prop :=
  Forall (fun c => match c with
                   | linearRampToValueAtTime v _ => (0 <= v <= 1)%Q
                   | _ => True
                   end) (calls g).

(** A voice whose oscillators have been started and not told to stop. *)
Definition live (v : VocalVoice) : Prop :=
  exists t,
    startTime (oscillator1 v) = Some t /\ startTime (oscillator2 v) = Some t /\
    stopTime (oscillator1 v) = None /\ stopTime (oscillator2 v) = None.

(** A voice that has been started, and then told once to fade out. *)
Definition faded (v : VocalVoice) : Prop :=
  exists t0 t, startTime (oscillator1 v) = Some t0 /\
               startTime (oscillator2 v) = Some t0 /\ fades t v.

Definition voicesKept (e : VocalAudioEngine) : Prop :=
  (forall k v, currentVoices e !! k = Some v -> live v /\ voiceType v = k) /\
  Forall faded (released e).

Definition contextKept (e : VocalAudioEngine) : Prop :=
  isInitialized e = true -> is_Some (audioContext e).

Definition masterKept (e : VocalAudioEngine) : Prop :=
  forall g, masterGain e = Some g -> rampsInRange g.

End Kept.

(** * Properties *)

(** ** The pitch quantizer *)

Section Quantizer.
Import Tracker.

Lemma whiteKeys_value :
  whiteKeys = [60; 62; 64; 65; 67; 69; 71; 72; 74; 76].
Proof. reflexivity. Qed.

Lemma octaveKeys_in_pattern octave :
  Forall (fun noteIdx => (noteIdx < length whiteKeyPattern)%nat)
         (JS.upto (if octave =? 4 then 0 else 0) (if octave =? 5 then 2 else 6)).
Proof.
  destruct (octave =? 4), (octave =? 5); cbn; repeat constructor.
Qed.

Lemma keyIndex_floor pitch : keyIndex pitch = Qfloor (pitch * 9).
Proof. reflexivity. Qed.

Lemma keyIndex_bounds pitch :
  (0 <= pitch <= 1)%Q -> 0 <= keyIndex pitch <= 9.
Proof.
  intros [Hlo Hhi]. rewrite keyIndex_floor. split.
  - change 0 with (Qfloor 0).
    apply Qfloor_resp_le, Qmult_le_0_compat; [assumption | discriminate].
  - change 9 with (Qfloor 9).
    apply Qfloor_resp_le.
    apply Qle_trans with (1 * 9)%Q; [| discriminate].
    apply Qmult_le_compat_r; [assumption | discriminate].
Qed.

Lemma keyIndex_mono p q : (p <= q)%Q -> keyIndex p <= keyIndex q.
Proof.
  intros H. rewrite !keyIndex_floor.
  apply Qfloor_resp_le, Qmult_le_compat_r; [assumption | discriminate].
Qed.

(** An ascending list read at ascending positions. *)
Lemma sorted_nth_error_le (l : list Z) :
  StronglySorted Z.le l ->
  forall i j a b, (i <= j)%nat ->
    nth_error l i = Some a -> nth_error l j = Some b -> a <= b.
Proof.
  induction 1 as [|x l Hs IH Hall]; intros i j a b Hij Hi Hj.
  - destruct i; discriminate.
  - destruct i as [|i], j as [|j]; cbn in *.
    + injection Hi as <-. injection Hj as <-. lia.
    + injection Hi as <-.
      rewrite List.Forall_forall in Hall. apply Hall.
      eapply nth_error_In; eauto.
    + lia.
    + eapply IH; [| eassumption | eassumption]. lia.
Qed.

Lemma whiteKeys_sorted : StronglySorted Z.lt whiteKeys.
Proof. rewrite whiteKeys_value. repeat constructor. Qed.

Lemma whiteKeys_sorted_le : StronglySorted Z.le whiteKeys.
Proof. rewrite whiteKeys_value. repeat (constructor; try lia). Qed.

Lemma index_defined (i : Z) :
  0 <= i <= 9 -> exists n, JS.index whiteKeys i = Some n /\ In n whiteKeys.
Proof.
  intros Hi. unfold JS.index.
  destruct (i <? 0) eqn:E; [lia |].
  destruct (nth_error whiteKeys (Z.to_nat i)) as [n|] eqn:En.
  - exists n. split; [reflexivity |]. eapply nth_error_In; eauto.
  - apply nth_error_None in En. rewrite whiteKeys_value in En. cbn in En. lia.
Qed.

Lemma pitchToMidi_defined pitch :
  (0 <= pitch <= 1)%Q -> exists n, pitchToMidi pitch = Some n /\ In n whiteKeys.
Proof. intros H. apply index_defined, keyIndex_bounds, H. Qed.

Lemma pitchToMidi_mono p q n m :
  (0 <= p)%Q -> (p <= q)%Q -> (q <= 1)%Q ->
  pitchToMidi p = Some n -> pitchToMidi q = Some m -> n <= m.
Proof.
  intros Hp Hpq Hq Hn Hm.
  assert (Hbp : 0 <= keyIndex p <= 9).
  { apply keyIndex_bounds. split; [assumption | now apply Qle_trans with q]. }
  assert (Hbq : 0 <= keyIndex q <= 9).
  { apply keyIndex_bounds. split; [now apply Qle_trans with p | assumption]. }
  pose proof (keyIndex_mono p q Hpq) as Hmono.
  unfold pitchToMidi, JS.index in Hn, Hm.
  destruct (keyIndex p <? 0) eqn:E1; [lia |].
  destruct (keyIndex q <? 0) eqn:E2; [lia |].
  eapply (sorted_nth_error_le whiteKeys whiteKeys_sorted_le
            (Z.to_nat (keyIndex p)) (Z.to_nat (keyIndex q))); eauto; lia.
Qed.

(** Every note of the scale is reached: key [i] at pitch [i / 9]. *)
Lemma whiteKeys_reached n :
  In n whiteKeys -> exists p, (0 <= p <= 1)%Q /\ pitchToMidi p = Some n.
Proof.
  rewrite whiteKeys_value. cbn.
  intros [<-|[<-|[<-|[<-|[<-|[<-|[<-|[<-|[<-|[<-|[]]]]]]]]]]].
  - exists (0 # 9)%Q. split; [split; discriminate | reflexivity].
  - exists (1 # 9)%Q. split; [split; discriminate | reflexivity].
  - exists (2 # 9)%Q. split; [split; discriminate | reflexivity].
  - exists (3 # 9)%Q. split; [split; discriminate | reflexivity].
  - exists (4 # 9)%Q. split; [split; discriminate | reflexivity].
  - exists (5 # 9)%Q. split; [split; discriminate | reflexivity].
  - exists (6 # 9)%Q. split; [split; discriminate | reflexivity].
  - exists (7 # 9)%Q. split; [split; discriminate | reflexivity].
  - exists (8 # 9)%Q. split; [split; discriminate | reflexivity].
  - exists (9 # 9)%Q. split; [split; discriminate | reflexivity].
Qed.

(** The same facts when the product [pitch * 9] is rounded: any
    rounding that is monotone and leaves small integers alone keeps the
    index within the scale, monotone, and unchanged at both ends. *)
Section Rounding.
Variable round : Q -> Q.
Hypothesis round_mono : forall a b, (a <= b)%Q -> (round a <= round b)%Q.
Hypothesis round_int : forall k : Z, 0 <= k <= 9 -> (round (inject_Z k) == inject_Z k)%Q.

Lemma keyIndexRounded_mono p q :
  (p <= q)%Q -> keyIndexRounded round p <= keyIndexRounded round q.
Proof.
  intros H. unfold keyIndexRounded.
  apply Qfloor_resp_le, round_mono, Qmult_le_compat_r; [assumption | discriminate].
Qed.

Lemma keyIndexRounded_0 : keyIndexRounded round 0 = 0.
Proof.
  unfold keyIndexRounded.
  transitivity (Qfloor (inject_Z 0)); [| apply Qfloor_Z].
  apply Qfloor_comp.
  transitivity (round (inject_Z 0)); [| apply round_int; lia].
  apply Qle_antisym; apply round_mono; discriminate.
Qed.

Lemma keyIndexRounded_1 : keyIndexRounded round 1 = 9.
Proof.
  unfold keyIndexRounded.
  transitivity (Qfloor (inject_Z 9)); [| apply Qfloor_Z].
  apply Qfloor_comp.
  transitivity (round (inject_Z 9)); [| apply round_int; lia].
  apply Qle_antisym; apply round_mono; discriminate.
Qed.

Lemma keyIndexRounded_bounds pitch :
  (0 <= pitch <= 1)%Q -> 0 <= keyIndexRounded round pitch <= 9.
Proof.
  intros [Hlo Hhi]. split.
  - rewrite <- keyIndexRounded_0. now apply keyIndexRounded_mono.
  - rewrite <- keyIndexRounded_1. now apply keyIndexRounded_mono.
Qed.
End Rounding.

Lemma keyIndexRounded_exact pitch :
  keyIndexRounded (fun v => v) pitch = keyIndex pitch.
Proof. reflexivity. Qed.

(** *** Rounding to binary64 *)

Lemma pow2_pos e : (0 < JS.pow2 e)%Q.
Proof. apply Qpower_0_lt. reflexivity. Qed.

Lemma pow2_add a b : (JS.pow2 (a + b) == JS.pow2 a * JS.pow2 b)%Q.
Proof. apply Qpower_plus. discriminate. Qed.

Lemma pow2_le a b : a <= b -> (JS.pow2 a <= JS.pow2 b)%Q.
Proof. intros H. apply Qpower_le_compat_l; [assumption | discriminate]. Qed.

Lemma pow2_Z e : 0 <= e -> (JS.pow2 e == inject_Z (2 ^ e))%Q.
Proof. intros H. unfold JS.pow2. now rewrite Zpower_Qpower. Qed.

Lemma Z_log2_Q (n : Z) :
  0 < n ->
  (JS.pow2 (Z.log2 n) <= inject_Z n)%Q /\ (inject_Z n < JS.pow2 (Z.log2 n + 1))%Q.
Proof.
  intros Hn. destruct (Z.log2_spec n Hn) as [Hlo Hhi].
  pose proof (Z.log2_nonneg n) as H0.
  split.
  - rewrite pow2_Z by assumption. now rewrite <- Zle_Qle.
  - rewrite pow2_Z by lia. rewrite <- Zlt_Qlt. now rewrite Z.add_1_r.
Qed.

(** [binade x] is the exponent of the power of two at or below [x]. *)
Lemma binade_spec x :
  (0 < x)%Q ->
  (JS.pow2 (JS.binade x) <= x)%Q /\ (x < JS.pow2 (JS.binade x + 1))%Q.
Proof.
  intros Hx. destruct x as [n d].
  assert (Hn : 0 < n) by (unfold Qlt in Hx; cbn in Hx; lia).
  destruct (Z_log2_Q n Hn) as [Hn1 Hn2].
  destruct (Z_log2_Q (Zpos d) eq_refl) as [Hd1 Hd2].
  assert (Hxd : ((n # d) * inject_Z (Zpos d) == inject_Z n)%Q).
  { unfold Qeq, Qmult, inject_Z. cbn. lia. }
  assert (Hdpos : (0 < inject_Z (Zpos d))%Q) by reflexivity.
  unfold JS.binade. cbn [Qnum Qden].
  set (a := Z.log2 n) in *. set (b := Z.log2 (Zpos d)) in *.
  destruct (Qle_bool (JS.pow2 (a - b)) (n # d)) eqn:E.
  - apply Qle_bool_iff in E. split; [assumption |].
    apply Qmult_lt_r with (JS.pow2 b); [apply pow2_pos |].
    rewrite <- pow2_add. replace (a - b + 1 + b) with (a + 1) by lia.
    apply Qle_lt_trans with (inject_Z n); [| assumption].
    rewrite <- Hxd. apply Qmult_le_l; assumption.
  - assert (E' : ~ (JS.pow2 (a - b) <= n # d)%Q).
    { intros H. apply Qle_bool_iff in H. congruence. }
    apply Qnot_le_lt in E'. split.
    + apply Qlt_le_weak.
      apply Qmult_lt_r with (JS.pow2 (b + 1)); [apply pow2_pos |].
      rewrite <- pow2_add. replace (a - b - 1 + (b + 1)) with a by lia.
      apply Qle_lt_trans with (inject_Z n); [assumption |].
      rewrite <- Hxd. apply Qmult_lt_l; assumption.
    + now replace (a - b - 1 + 1) with (a - b) by lia.
Qed.

Lemma binade_mono x y : (0 < x)%Q -> (x <= y)%Q -> JS.binade x <= JS.binade y.
Proof.
  intros Hx Hxy.
  assert (Hy : (0 < y)%Q) by (eapply Qlt_le_trans; eauto).
  destruct (binade_spec x Hx) as [Hx1 _].
  destruct (binade_spec y Hy) as [_ Hy2].
  destruct (Z_le_gt_dec (JS.binade x) (JS.binade y)) as [|Hgt]; [assumption | exfalso].
  assert (H : (JS.pow2 (JS.binade y + 1) <= JS.pow2 (JS.binade x))%Q)
    by (apply pow2_le; lia).
  lra.
Qed.

Lemma nearestEven_range y : Qfloor y <= JS.nearestEven y <= Qfloor y + 1.
Proof.
  unfold JS.nearestEven.
  destruct (y - inject_Z (Qfloor y) ?= 1 # 2)%Q; [destruct (Z.even _) | |]; lia.
Qed.

Lemma nearestEven_mono y1 y2 :
  (y1 <= y2)%Q -> JS.nearestEven y1 <= JS.nearestEven y2.
Proof.
  intros H. pose proof (Qfloor_resp_le _ _ H) as Hf.
  pose proof (nearestEven_range y1) as R1. pose proof (nearestEven_range y2) as R2.
  destruct (Z.eq_dec (Qfloor y1) (Qfloor y2)) as [E|]; [| lia].
  unfold JS.nearestEven. rewrite <- E.
  destruct (y1 - inject_Z (Qfloor y1) ?= 1 # 2)%Q eqn:C1;
  destruct (y2 - inject_Z (Qfloor y1) ?= 1 # 2)%Q eqn:C2;
  try destruct (Z.even (Qfloor y1)); try lia; exfalso;
  repeat match goal with
         | C : (_ ?= _)%Q = Eq |- _ => apply <- Qeq_alt in C
         | C : (_ ?= _)%Q = Lt |- _ => apply <- Qlt_alt in C
         | C : (_ ?= _)%Q = Gt |- _ => apply <- Qgt_alt in C
         end; lra.
Qed.

Lemma nearestEven_Z z : JS.nearestEven (inject_Z z) = z.
Proof.
  unfold JS.nearestEven. rewrite Qfloor_Z.
  assert (C : (inject_Z z - inject_Z z ?= 1 # 2)%Q = Lt).
  { apply -> Qlt_alt. ring_simplify (inject_Z z - inject_Z z)%Q. reflexivity. }
  now rewrite C.
Qed.

(** Rounding does not reorder positive numbers: within a binade by
    the monotonicity of [nearestEven], and across binades because the
    power of two between them is a binary64 value. *)
Lemma roundPositive_mono x y :
  (0 < x)%Q -> (x <= y)%Q -> (JS.roundPositive x <= JS.roundPositive y)%Q.
Proof.
  intros Hx Hxy.
  assert (Hy : (0 < y)%Q) by (eapply Qlt_le_trans; eauto).
  pose proof (binade_mono x y Hx Hxy) as Hb.
  destruct (binade_spec x Hx) as [_ Hx2].
  destruct (binade_spec y Hy) as [Hy1 _].
  unfold JS.roundPositive, JS.ulpExponent.
  set (ex := Z.max (JS.binade x - 52) (-1074)).
  set (ey := Z.max (JS.binade y - 52) (-1074)).
  pose proof (pow2_pos ex) as Pex. pose proof (pow2_pos ey) as Pey.
  destruct (Z.eq_dec ex ey) as [E|NE].
  - rewrite <- E. apply Qmult_le_compat_r; [| lra].
    rewrite <- Zle_Qle. apply nearestEven_mono.
    apply Qmult_le_compat_r; [assumption |].
    apply Qlt_le_weak, Qinv_lt_0_compat, Pex.
  - assert (Hey : ey = JS.binade y - 52) by lia.
    assert (Hlt : JS.binade x + 1 <= JS.binade y) by lia.
    apply Qle_trans with (JS.pow2 (JS.binade y)).
    + assert (Hp : (JS.pow2 (JS.binade y)
                    == JS.pow2 (JS.binade y - ex) * JS.pow2 ex)%Q).
      { rewrite <- pow2_add.
        now replace (JS.binade y - ex + ex) with (JS.binade y) by lia. }
      rewrite Hp. apply Qmult_le_compat_r; [| lra].
      rewrite (pow2_Z (JS.binade y - ex)) by lia. rewrite <- Zle_Qle.
      rewrite <- (nearestEven_Z (2 ^ (JS.binade y - ex))).
      apply nearestEven_mono.
      rewrite <- (pow2_Z (JS.binade y - ex)) by lia.
      apply Qle_shift_div_r; [assumption |].
      rewrite <- pow2_add.
      replace (JS.binade y - ex + ex) with (JS.binade y) by lia.
      apply Qlt_le_weak. eapply Qlt_le_trans; [eassumption |].
      apply pow2_le; lia.
    + assert (Hp : (JS.pow2 (JS.binade y) == JS.pow2 52 * JS.pow2 ey)%Q).
      { rewrite <- pow2_add. now replace (52 + ey) with (JS.binade y) by lia. }
      rewrite Hp. apply Qmult_le_compat_r; [| lra].
      rewrite (pow2_Z 52) by lia. rewrite <- Zle_Qle.
      rewrite <- (nearestEven_Z (2 ^ 52)) at 1.
      apply nearestEven_mono.
      rewrite <- (pow2_Z 52) by lia.
      apply Qle_shift_div_l; [assumption |].
      rewrite <- pow2_add. replace (52 + ey) with (JS.binade y) by lia.
      assumption.
Qed.

Lemma roundPositive_nonneg x : (0 < x)%Q -> (0 <= JS.roundPositive x)%Q.
Proof.
  intros Hx. unfold JS.roundPositive.
  apply Qmult_le_0_compat; [| apply Qlt_le_weak, pow2_pos].
  change 0%Q with (inject_Z 0). rewrite <- Zle_Qle.
  rewrite <- (nearestEven_Z 0). apply nearestEven_mono.
  apply Qle_shift_div_l; [apply pow2_pos |].
  change (inject_Z 0) with 0%Q. lra.
Qed.

Lemma round64_mono x y : (x <= y)%Q -> (JS.round64 x <= JS.round64 y)%Q.
Proof.
  intros Hxy. unfold JS.round64.
  destruct (x ?= 0)%Q eqn:Cx;
    [apply <- Qeq_alt in Cx | apply <- Qlt_alt in Cx | apply <- Qgt_alt in Cx];
  (destruct (y ?= 0)%Q eqn:Cy;
    [apply <- Qeq_alt in Cy | apply <- Qlt_alt in Cy | apply <- Qgt_alt in Cy]);
  try lra.
  - now apply roundPositive_nonneg.
  - assert (H : (0 <= JS.roundPositive (- x))%Q) by (apply roundPositive_nonneg; lra).
    lra.
  - assert (H : (JS.roundPositive (- y) <= JS.roundPositive (- x))%Q)
      by (apply roundPositive_mono; lra).
    lra.
  - assert (H1 : (0 <= JS.roundPositive (- x))%Q) by (apply roundPositive_nonneg; lra).
    assert (H2 : (0 <= JS.roundPositive y)%Q) by (now apply roundPositive_nonneg).
    lra.
  - now apply roundPositive_mono.
Qed.

(** The integers 0 to 9 are binary64 values. *)
Lemma round64_int (k : Z) :
  0 <= k <= 9 -> (JS.round64 (inject_Z k) == inject_Z k)%Q.
Proof.
  intros H.
  assert (C : k = 0 \/ k = 1 \/ k = 2 \/ k = 3 \/ k = 4 \/ k = 5 \/ k = 6
              \/ k = 7 \/ k = 8 \/ k = 9) by lia.
  repeat (destruct C as [->|C]); try subst k; vm_compute; reflexivity.
Qed.

(** [round64] of an exact product is the kernel's binary64 product, on
    the sample numbers multiplied by 9 and by each other. *)
Example round64_is_the_binary64_product :
  forallb (fun a =>
             forallb (fun b =>
                        Qeq_bool (JS.ofDouble (a * b)%float)
                                 (JS.round64 (JS.ofDouble a * JS.ofDouble b)))
                     (9%float :: JS.samples))
          JS.samples = true.
Proof. vm_compute. reflexivity. Qed.

(** *** The quantizer with the rounded product *)

Lemma Double_keyIndex_floor pitch :
  Double.keyIndex pitch = Qfloor (JS.round64 (pitch * 9)).
Proof. reflexivity. Qed.

Lemma Double_keyIndex_bounds pitch :
  (0 <= pitch <= 1)%Q -> 0 <= Double.keyIndex pitch <= 9.
Proof. apply (keyIndexRounded_bounds JS.round64 round64_mono round64_int). Qed.

Lemma Double_keyIndex_mono p q :
  (p <= q)%Q -> Double.keyIndex p <= Double.keyIndex q.
Proof. apply (keyIndexRounded_mono JS.round64 round64_mono). Qed.

(** Rounding the product moves the index by at most one, upwards. *)
Lemma Double_keyIndex_close pitch :
  (0 <= pitch <= 1)%Q ->
  keyIndex pitch <= Double.keyIndex pitch <= keyIndex pitch + 1.
Proof.
  intros H. pose proof (keyIndex_bounds pitch H) as Hb.
  rewrite keyIndex_floor in *. rewrite Double_keyIndex_floor.
  pose proof (Qfloor_le (pitch * 9)) as Hlo.
  pose proof (Qlt_floor (pitch * 9)) as Hhi.
  set (k := Qfloor (pitch * 9)) in *.
  split.
  - rewrite <- (Qfloor_Z k) at 1.
    rewrite <- (Qfloor_comp _ _ (round64_int k Hb)).
    apply Qfloor_resp_le, round64_mono, Hlo.
  - assert (Hu : (pitch * 9 <= inject_Z (Z.min (k + 1) 9))%Q).
    { destruct (Z.min_spec (k + 1) 9) as [[_ ->] | [_ ->]].
      - now apply Qlt_le_weak.
      - destruct H as [_ H1]. change (inject_Z 9) with 9%Q. lra. }
    apply Z.le_trans with (Z.min (k + 1) 9); [| lia].
    rewrite <- (Qfloor_Z (Z.min (k + 1) 9)).
    rewrite <- (Qfloor_comp _ _ (round64_int (Z.min (k + 1) 9) ltac:(lia))).
    apply Qfloor_resp_le, round64_mono, Hu.
Qed.

Lemma Double_pitchToMidi_defined pitch :
  (0 <= pitch <= 1)%Q ->
  exists n, Double.pitchToMidi pitch = Some n /\ In n whiteKeys.
Proof. intros H. apply index_defined, Double_keyIndex_bounds, H. Qed.

Lemma Double_pitchToMidi_mono p q n m :
  (0 <= p)%Q -> (p <= q)%Q -> (q <= 1)%Q ->
  Double.pitchToMidi p = Some n -> Double.pitchToMidi q = Some m -> n <= m.
Proof.
  intros Hp Hpq Hq Hn Hm.
  assert (Hbp : 0 <= Double.keyIndex p <= 9).
  { apply Double_keyIndex_bounds. split; [assumption | now apply Qle_trans with q]. }
  assert (Hbq : 0 <= Double.keyIndex q <= 9).
  { apply Double_keyIndex_bounds. split; [now apply Qle_trans with p | assumption]. }
  pose proof (Double_keyIndex_mono p q Hpq) as Hmono.
  unfold Double.pitchToMidi, JS.index in Hn, Hm.
  destruct (Double.keyIndex p <? 0) eqn:E1; [lia |].
  destruct (Double.keyIndex q <? 0) eqn:E2; [lia |].
  eapply (sorted_nth_error_le whiteKeys whiteKeys_sorted_le
            (Z.to_nat (Double.keyIndex p)) (Z.to_nat (Double.keyIndex q))); eauto; lia.
Qed.

(** Both ends of the range with the rounded product, and a pitch at
    which rounding decides the note. *)
Example Double_pitchToMidi_samples :
  Double.pitchToMidi 0 = Some 60 /\ Double.pitchToMidi 1 = Some 76 /\
  Double.pitchToMidi (JS.ofDouble 0x1.5555555555555p-2) = Some 65 /\
  pitchToMidi (JS.ofDouble 0x1.5555555555555p-2) = Some 64.
Proof. split_and!; vm_compute; reflexivity. Qed.

Lemma scale_value :
  Spec.scale = [60; 62; 64; 65; 67; 69; 71; 72; 74; 76; 77; 79; 81; 83; 84].
Proof. reflexivity. Qed.

Lemma whiteKeys_in_scale : incl whiteKeys Spec.scale.
Proof.
  rewrite whiteKeys_value, scale_value. intros n Hn. cbn in *. tauto.
Qed.

(** C1 (amended): the pitch quantizer draws its note from a fixed scale
    of 10 natural notes, C4 = 60 up to E5 = 76, in ascending MIDI order;
    for every pitchPosition in [0,1] it selects the note at the index
    that is the floor of the binary64 product pitchPosition * 9, which
    lies in [0,9]; that index is the floor of the exact product, or one
    more when rounding lifts the product to the next integer. *)
Theorem pitchToMidi_selects_white_key (pitch : Q) :
  (0 <= pitch <= 1)%Q ->
  whiteKeys = [60; 62; 64; 65; 67; 69; 71; 72; 74; 76] /\
  StronglySorted Z.lt whiteKeys /\
  Forall (fun n => Spec.isNatural n = true) whiteKeys /\
  0 <= Qfloor (JS.round64 (pitch * 9)) <= 9 /\
  Double.pitchToMidi pitch
  = nth_error whiteKeys (Z.to_nat (Qfloor (JS.round64 (pitch * 9)))) /\
  Qfloor (pitch * 9) <= Qfloor (JS.round64 (pitch * 9)) <= Qfloor (pitch * 9) + 1 /\
  exists n, Double.pitchToMidi pitch = Some n /\ In n whiteKeys.
Proof.
  intros H.
  pose proof (Double_keyIndex_bounds pitch H) as Hb.
  pose proof (Double_keyIndex_close pitch H) as Hc.
  rewrite Double_keyIndex_floor in Hb, Hc. rewrite keyIndex_floor in Hc.
  split_and!.
  - reflexivity.
  - apply whiteKeys_sorted.
  - rewrite whiteKeys_value. repeat constructor.
  - apply Hb.
  - apply Hb.
  - unfold Double.pitchToMidi, JS.index. rewrite Double_keyIndex_floor.
    destruct (Qfloor (JS.round64 (pitch * 9)) <? 0) eqn:E; [lia | reflexivity].
  - apply Hc.
  - apply Hc.
  - now apply Double_pitchToMidi_defined.
Qed.

Lemma pitchToMidi_selects_white_key_witness :
  (0 <= JS.ofDouble 0x1.5555555555555p-2 <= 1)%Q /\
  Double.pitchToMidi (JS.ofDouble 0x1.5555555555555p-2) = Some 65 /\
  Qfloor (JS.ofDouble 0x1.5555555555555p-2 * 9) = 2.
Proof.
  assert (H : (0 <= JS.ofDouble 0x1.5555555555555p-2 <= 1)%Q).
  { split; vm_compute; discriminate. }
  split; [exact H |].
  destruct (pitchToMidi_selects_white_key (JS.ofDouble 0x1.5555555555555p-2) H)
    as (_ & _ & _ & _ & E & _ & _).
  split; [rewrite E |]; vm_compute; reflexivity.
Defined.

(** C1 as stated fails at pitchPosition = 1: the scale has 10 notes, not
    15; the index taken is 9, not 14; and the note is E5 = 76, not the
    fifteenth natural note above C4.  The product 1 * 9 is exact. *)
Lemma pitchToMidi_not_fifteen_notes :
  length whiteKeys <> 15%nat /\
  keyIndex 1 <> Spec.index 1 /\
  pitchToMidi 1 <> Spec.quantize 1 /\
  Double.keyIndex 1 = 9 /\ Spec.index 1 = 14 /\
  Double.pitchToMidi 1 = Some 76 /\ Spec.quantize 1 = Some 84.
Proof. split_and!; try discriminate; vm_compute; reflexivity. Qed.

(** C2: for pitchPositions in [0,1] the quantized note is monotonically
    non-decreasing in the pitchPosition, and always lies within the
    fixed range of the 15 natural notes from C4 = 60 upwards (it is one
    of the first ten of them). *)
Theorem pitchToMidi_monotone_in_range (p q : Q) :
  (0 <= p)%Q -> (p <= q)%Q -> (q <= 1)%Q ->
  exists n m,
    Double.pitchToMidi p = Some n /\ Double.pitchToMidi q = Some m /\ n <= m /\
    In n Spec.scale /\ In m Spec.scale /\
    length Spec.scale = 15%nat /\ StronglySorted Z.lt Spec.scale /\
    Forall (fun k => Spec.isNatural k = true) Spec.scale.
Proof.
  intros Hp Hpq Hq.
  destruct (Double_pitchToMidi_defined p) as (n & Hn & Hin).
  { split; [assumption | now apply Qle_trans with q]. }
  destruct (Double_pitchToMidi_defined q) as (m & Hm & Him).
  { split; [now apply Qle_trans with p | assumption]. }
  exists n, m. split_and!; try assumption.
  - eapply Double_pitchToMidi_mono; eauto.
  - now apply whiteKeys_in_scale.
  - now apply whiteKeys_in_scale.
  - reflexivity.
  - rewrite scale_value. repeat constructor.
  - rewrite scale_value. repeat constructor.
Qed.

Lemma pitchToMidi_monotone_in_range_witness :
  exists n m,
    Double.pitchToMidi (JS.ofDouble 0x1.5555555555555p-2) = Some n /\
    Double.pitchToMidi (JS.ofDouble 0x1.6666666666666p-1) = Some m /\ n <= m /\
    In n Spec.scale /\ In m Spec.scale /\
    length Spec.scale = 15%nat /\ StronglySorted Z.lt Spec.scale /\
    Forall (fun k => Spec.isNatural k = true) Spec.scale.
Proof.
  apply (pitchToMidi_monotone_in_range
           (JS.ofDouble 0x1.5555555555555p-2) (JS.ofDouble 0x1.6666666666666p-1));
    vm_compute; discriminate.
Defined.

(** C3: pitchPosition 0 gives the lowest note of the scale, and
    pitchPosition 1 the highest. *)
Theorem pitchToMidi_endpoints :
  pitchToMidi 0 = Some 60 /\ pitchToMidi 1 = Some 76 /\
  In 60 whiteKeys /\ In 76 whiteKeys /\
  Forall (fun n => 60 <= n <= 76) whiteKeys.
Proof.
  split_and!; try reflexivity.
  - rewrite whiteKeys_value. cbn. tauto.
  - rewrite whiteKeys_value. cbn. tauto.
  - rewrite whiteKeys_value. repeat (constructor; try lia).
Qed.

End Quantizer.

(** ** The gesture classifier *)

Section Classifier.
Import Tracker.

Lemma lt_spec a b : JS.lt a b = true <-> (a < b)%Q.
Proof.
  unfold JS.lt. rewrite negb_true_iff.
  destruct (Qle_bool b a) eqn:E.
  - apply Qle_bool_iff in E. split; [discriminate |].
    intros H. exfalso. eapply Qlt_not_le; eauto.
  - split; [intros _ | reflexivity].
    apply Qnot_le_lt. intros H. apply Qle_bool_iff in H. congruence.
Qed.

Lemma lt_dec_eq a b : JS.lt a b = if Qlt_le_dec a b then true else false.
Proof.
  destruct (Qlt_le_dec a b) as [H|H].
  - now apply lt_spec.
  - destruct (JS.lt a b) eqn:E; [| reflexivity].
    apply lt_spec in E. exfalso. eapply Qlt_not_le; eauto.
Qed.

Lemma lt_asym a b : JS.lt a b = true -> JS.lt b a = false.
Proof.
  intros H. apply lt_spec in H.
  destruct (JS.lt b a) eqn:E; [| reflexivity].
  apply lt_spec in E. exfalso.
  apply (Qlt_irrefl a). now apply Qlt_trans with b.
Qed.

(** The code's finger at a pair of indices is the specification's pair. *)
Lemma finger_pairOf (landmarks : Landmarks) (f : nat * nat) :
  match (JS.at_ landmarks (fst f), JS.at_ landmarks (snd f)) with
  | (Some tip, Some pip) => Some (tip, pip)
  | _ => None
  end = GestureSpec.pairOf landmarks f.
Proof.
  unfold GestureSpec.pairOf, JS.at_.
  destruct (nth_error landmarks (fst f)) as [[tip|]|];
    destruct (nth_error landmarks (snd f)) as [[pip|]|]; reflexivity.
Qed.

Lemma validFingers_pairs (landmarks : Landmarks) :
  validFingers landmarks = omap (GestureSpec.pairOf landmarks) GestureSpec.fingerPairs.
Proof.
  unfold validFingers, fingers. cbn [omap list_omap GestureSpec.fingerPairs].
  rewrite <- !finger_pairOf. reflexivity.
Qed.

(** Counting over the valid fingers is counting over the four pairs. *)
Lemma count_valid (landmarks : Landmarks)
      (P : Landmark.t * Landmark.t -> bool) (pairs : list (nat * nat)) :
  length (List.filter P (omap (GestureSpec.pairOf landmarks) pairs))
  = length (List.filter
              (fun f => match GestureSpec.pairOf landmarks f with
                        | Some tp => P tp
                        | None => false
                        end) pairs).
Proof.
  induction pairs as [|f pairs IH]; [reflexivity |].
  cbn. destruct (GestureSpec.pairOf landmarks f) as [tp|]; cbn.
  - destruct (P tp); cbn; now rewrite IH.
  - apply IH.
Qed.

Lemma filter_ext_length {T} (P P' : T -> bool) (l : list T) :
  (forall a, P a = P' a) ->
  length (List.filter P l) = length (List.filter P' l).
Proof.
  intros H. induction l as [|a l IH]; [reflexivity |].
  cbn. rewrite <- H. destruct (P a); cbn; now rewrite IH.
Qed.

Lemma valid_count (landmarks : Landmarks) :
  length (validFingers landmarks) = GestureSpec.validPairs landmarks.
Proof.
  rewrite validFingers_pairs.
  rewrite <- (List.filter_true (omap _ _)) at 1.
  rewrite count_valid. reflexivity.
Qed.

Lemma extended_count (landmarks : Landmarks) :
  extendedFingers landmarks = GestureSpec.extendedPairs landmarks.
Proof.
  unfold extendedFingers. rewrite validFingers_pairs, count_valid.
  apply filter_ext_length. intros f. unfold GestureSpec.extended.
  destruct (GestureSpec.pairOf landmarks f) as [[tip pip]|]; [| reflexivity].
  apply lt_dec_eq.
Qed.

Lemma folded_count (landmarks : Landmarks) :
  foldedFingers landmarks = GestureSpec.foldedPairs landmarks.
Proof.
  unfold foldedFingers. rewrite validFingers_pairs, count_valid.
  apply filter_ext_length. intros f. unfold GestureSpec.folded.
  destruct (GestureSpec.pairOf landmarks f) as [[tip pip]|]; [| reflexivity].
  apply lt_dec_eq.
Qed.

(** No finger is both extended and folded, so the two counts together
    do not exceed the number of valid fingers, which is at most 4. *)
Lemma exclusive_counts {T} (P R : T -> bool) (l : list T) :
  (forall a, P a = true -> R a = false) ->
  (length (List.filter P l) + length (List.filter R l) <= length l)%nat.
Proof.
  intros H. induction l as [|a l IH]; [reflexivity |].
  cbn. destruct (P a) eqn:E.
  - rewrite (H a E). cbn. lia.
  - destruct (R a); cbn; lia.
Qed.

Lemma validFingers_le_4 (landmarks : Landmarks) :
  (length (validFingers landmarks) <= 4)%nat.
Proof.
  rewrite valid_count. unfold GestureSpec.validPairs, GestureSpec.count.
  etransitivity; [apply List.filter_length_le | reflexivity].
Qed.

Lemma extended_folded_le (landmarks : Landmarks) :
  (extendedFingers landmarks + foldedFingers landmarks
   <= length (validFingers landmarks))%nat.
Proof.
  apply exclusive_counts. intros [tip pip]. cbn. apply lt_asym.
Qed.

(** C4: on a hand of 21 landmarks, with fewer than 3 valid tip/pip pairs
    the classifier returns NONE; with at least 3 extended pairs it
    returns A (Open); with at least 3 folded pairs it returns O
    (Closed); in every other case, a 2/2 split among them, NONE. *)
Theorem detectVowel_classification (landmarks : Landmarks) :
  (21 <= length landmarks)%nat ->
  ((GestureSpec.validPairs landmarks < 3)%nat ->
     detectVowel (Some landmarks) = NONE) /\
  ((3 <= GestureSpec.extendedPairs landmarks)%nat ->
     detectVowel (Some landmarks) = A) /\
  ((3 <= GestureSpec.foldedPairs landmarks)%nat ->
     detectVowel (Some landmarks) = O) /\
  ((GestureSpec.extendedPairs landmarks < 3)%nat ->
   (GestureSpec.foldedPairs landmarks < 3)%nat ->
     detectVowel (Some landmarks) = NONE) /\
  (GestureSpec.extendedPairs landmarks = 2%nat ->
   GestureSpec.foldedPairs landmarks = 2%nat ->
     detectVowel (Some landmarks) = NONE).
Proof.
  intros Hlen.
  pose proof (extended_folded_le landmarks) as Hsum.
  pose proof (validFingers_le_4 landmarks) as H4.
  rewrite <- valid_count, <- extended_count, <- folded_count.
  unfold detectVowel.
  destruct (length landmarks <? 21)%nat eqn:E21;
    [apply Nat.ltb_lt in E21; lia |].
  destruct (length (validFingers landmarks) <? 3)%nat eqn:Ev;
    [apply Nat.ltb_lt in Ev | apply Nat.ltb_ge in Ev];
    (destruct (3 <=? extendedFingers landmarks)%nat eqn:Ee;
       [apply Nat.leb_le in Ee | apply Nat.leb_gt in Ee]);
    (destruct (3 <=? foldedFingers landmarks)%nat eqn:Ef;
       [apply Nat.leb_le in Ef | apply Nat.leb_gt in Ef]);
    split_and!; intros; first [reflexivity | lia].
Qed.

(** Four extended fingers. *)
Lemma detectVowel_classification_witness :
  (21 <= length GestureSpec.openHand)%nat /\
  detectVowel (Some GestureSpec.openHand) = A.
Proof.
  split; [cbn; lia |].
  apply (detectVowel_classification GestureSpec.openHand).
  - cbn. lia.
  - vm_compute. lia.
Defined.

Example detectVowel_all_folded :
  detectVowel (Some GestureSpec.closedHand) = O.
Proof. reflexivity. Qed.

Example detectVowel_split :
  detectVowel (Some GestureSpec.splitHand) = NONE.
Proof. reflexivity. Qed.

(** Fewer landmarks than a hand has: no gesture, whatever the fingers. *)
Lemma detectVowel_short (landmarks : Landmarks) :
  (length landmarks < 21)%nat -> detectVowel (Some landmarks) = NONE.
Proof.
  intros H. unfold detectVowel.
  apply Nat.ltb_lt in H. now rewrite H.
Qed.

End Classifier.

(** ** Role resolution and the per-frame update *)

Section Frames.
Import Tracker.

Lemma at_8_length (landmarks : Landmarks) (tip : Landmark.t) :
  JS.at_ landmarks 8 = Some tip -> (8 <? length landmarks)%nat = true.
Proof.
  unfold JS.at_. intros H. apply Nat.ltb_lt.
  destruct (nth_error landmarks 8) eqn:E; [| discriminate].
  apply nth_error_Some. congruence.
Qed.

Lemma roles_exclusive (pref : option HandPreference) (label : string) :
  isControlHand pref label = true -> isVolumeHand pref label = false.
Proof.
  unfold isControlHand, isVolumeHand.
  destruct pref as [[|]|]; cbn; try discriminate;
    destruct (String.eqb_spec label "Right"), (String.eqb_spec label "Left");
    cbn; congruence.
Qed.

(** C5: the role follows the handedness label mirrored.  With the
    control hand configured 'right', a hand labelled 'Left' is the
    control hand and its fingertip is stored as the control position,
    and a hand labelled 'Right' is the volume hand; with 'left'
    configured it is the other way round. *)
Theorem role_resolution_mirrored (results : HandResults) (handIndex : nat)
        (landmarks : Landmarks) (indexTip : Landmark.t) (data : HandData) :
  JS.at_ landmarks 8 = Some indexTip ->
  let control :=
    {| HandPosition.x := Landmark.x indexTip; HandPosition.y := Landmark.y indexTip;
       HandPosition.detected := true;
       HandPosition.vowel := detectVowel (Some landmarks) |} in
  let volume :=
    {| VolumeHand.y := Landmark.y indexTip; VolumeHand.detected := true |} in
  (isControlHand (Some right) "Left" = true /\ isVolumeHand (Some right) "Left" = false) /\
  (isVolumeHand (Some right) "Right" = true /\ isControlHand (Some right) "Right" = false) /\
  (isControlHand (Some left) "Right" = true /\ isVolumeHand (Some left) "Right" = false) /\
  (isVolumeHand (Some left) "Left" = true /\ isControlHand (Some left) "Left" = false) /\
  (handednessOf results handIndex = "Left" ->
     storeHand (Some right) results data handIndex landmarks = (Some control, snd data) /\
     storeHand (Some left) results data handIndex landmarks = (fst data, Some volume)) /\
  (handednessOf results handIndex = "Right" ->
     storeHand (Some right) results data handIndex landmarks = (fst data, Some volume) /\
     storeHand (Some left) results data handIndex landmarks = (Some control, snd data)).
Proof.
  intros Htip control volume.
  pose proof (at_8_length _ _ Htip) as Hlen.
  split_and!; try reflexivity.
  - intros E. unfold storeHand. rewrite E, Hlen, Htip. cbn. split; reflexivity.
  - intros E. unfold storeHand. rewrite E, Hlen, Htip. cbn. split; reflexivity.
Qed.

Lemma role_resolution_mirrored_witness :
  storeHand (Some right)
            {| multiHandLandmarks := Some [GestureSpec.openHand];
               multiHandedness := Some ["Left"] |}
            (None, None) 0 GestureSpec.openHand
  = (Some {| HandPosition.x := 0.5; HandPosition.y := 0.2;
             HandPosition.detected := true; HandPosition.vowel := A |}, None).
Proof.
  pose proof (role_resolution_mirrored
                {| multiHandLandmarks := Some [GestureSpec.openHand];
                   multiHandedness := Some ["Left"] |}
                0 GestureSpec.openHand
                {| Landmark.x := 0.5; Landmark.y := 0.2; Landmark.z := None |}
                (None, None) eq_refl) as H.
  cbv zeta in H.
  destruct H as (_ & _ & _ & _ & H & _).
  destruct (H eq_refl) as [H1 _]. exact H1.
Defined.

(** The [forEach] leaves [controlHandData] alone unless some hand can
    take the control role, and likewise for the volume role. *)
Lemma forEachHand_no_control pref results hands :
  forall handIndex data,
    (forall k landmarks, nth_error hands k = Some landmarks ->
       isControlHand pref (handednessOf results (handIndex + k)) = true ->
       JS.at_ landmarks 8 = None) ->
    fst (forEachHand pref results handIndex hands data) = fst data.
Proof.
  induction hands as [|landmarks hands IH]; intros handIndex data H; [reflexivity |].
  cbn [forEachHand]. rewrite IH.
  - unfold storeHand.
    destruct (isControlHand pref (handednessOf results handIndex)) eqn:Ec;
      cbn [andb].
    + rewrite (H 0%nat landmarks eq_refl); [| now rewrite Nat.add_0_r].
      rewrite (roles_exclusive _ _ Ec). cbn [andb].
      destruct (8 <? length landmarks)%nat; reflexivity.
    + destruct (isVolumeHand pref (handednessOf results handIndex)
                && (8 <? length landmarks)%nat); [| reflexivity].
      destruct (JS.at_ landmarks 8); reflexivity.
  - intros k lms Hk Hc. apply (H (S k) lms Hk).
    now replace (handIndex + S k)%nat with (S handIndex + k)%nat by lia.
Qed.

Lemma forEachHand_no_volume pref results hands :
  forall handIndex data,
    (forall k landmarks, nth_error hands k = Some landmarks ->
       isVolumeHand pref (handednessOf results (handIndex + k)) = true ->
       JS.at_ landmarks 8 = None) ->
    snd (forEachHand pref results handIndex hands data) = snd data.
Proof.
  induction hands as [|landmarks hands IH]; intros handIndex data H; [reflexivity |].
  cbn [forEachHand]. rewrite IH.
  - unfold storeHand.
    destruct (isControlHand pref (handednessOf results handIndex)
              && (8 <? length landmarks)%nat) eqn:Ec.
    + destruct (JS.at_ landmarks 8); reflexivity.
    + destruct (isVolumeHand pref (handednessOf results handIndex)) eqn:Ev;
        [| reflexivity].
      cbn [andb]. rewrite (H 0%nat landmarks eq_refl); [| now rewrite Nat.add_0_r].
      destruct (8 <? length landmarks)%nat; reflexivity.
  - intros k lms Hk Hc. apply (H (S k) lms Hk).
    now replace (handIndex + S k)%nat with (S handIndex + k)%nat by lia.
Qed.

Lemma onResults_control_lost results c :
  ~ GestureSpec.present isControlHand (handPreference c) results ->
  controlHand (onResults true results c) = controlLost (controlHand c).
Proof.
  intros Hno. unfold onResults. cbn [negb].
  destruct (multiHandLandmarks results) as [[|l hands]|] eqn:E; try reflexivity.
  destruct (forEachHand _ _ _ _ _) as [cd vd] eqn:Ef.
  assert (Hcd : cd = None).
  { change cd with (fst (cd, vd)). rewrite <- Ef.
    rewrite forEachHand_no_control; [reflexivity |].
    intros k lms Hk Hc.
    destruct (JS.at_ lms 8) eqn:Et; [| reflexivity].
    exfalso. apply Hno. exists k, lms, (l :: hands).
    split_and!; [exact E | exact Hk | exact Hc | congruence]. }
  subst cd. reflexivity.
Qed.

Lemma onResults_volume_lost results c :
  ~ GestureSpec.present isVolumeHand (handPreference c) results ->
  volumeHand (onResults true results c) = volumeLost (volumeHand c).
Proof.
  intros Hno. unfold onResults. cbn [negb].
  destruct (multiHandLandmarks results) as [[|l hands]|] eqn:E; try reflexivity.
  destruct (forEachHand _ _ _ _ _) as [cd vd] eqn:Ef.
  assert (Hvd : vd = None).
  { change vd with (snd (cd, vd)). rewrite <- Ef.
    rewrite forEachHand_no_volume; [reflexivity |].
    intros k lms Hk Hc.
    destruct (JS.at_ lms 8) eqn:Et; [| reflexivity].
    exfalso. apply Hno. exists k, lms, (l :: hands).
    split_and!; [exact E | exact Hk | exact Hc | congruence]. }
  subst vd. reflexivity.
Qed.

Lemma getVolumeFromY_range y :
  (0 <= getVolumeFromY y <= 1)%Q.
Proof.
  unfold getVolumeFromY, JS.clamp01. split.
  - apply Q.le_max_l.
  - apply Q.max_lub; [discriminate | apply Q.le_min_l].
Qed.

(** The callback either throws while drawing, before any state is
    set, or returns with the hands set from the frame. *)
Lemma Render_onResults_cases mounted r c :
  (mounted = true /\ Render.throws r = true /\
   Render.onResults mounted r c = (Audio.Threw, c)) \/
  ((mounted = false \/ Render.throws r = false) /\
   Render.onResults mounted r c
   = (Audio.Returned, onResults mounted (Render.handResults r) c)).
Proof.
  unfold Render.onResults.
  destruct mounted, (Render.throws r); cbn [andb]; auto.
Qed.

Lemma Render_onResults_returned r c c' :
  Render.onResults true r c = (Audio.Returned, c') ->
  Render.throws r = false /\ c' = onResults true (Render.handResults r) c.
Proof.
  destruct (Render_onResults_cases true r c) as [(_ & _ & E) | ([|Ht] & E)];
    rewrite E; try discriminate.
  intros [= <-]. auto.
Qed.

Lemma Render_throws_iff r :
  Render.throws r = true <->
  exists hands hand,
    Render.landmarks r = Some hands /\ In hand hands /\ In Render.Undefined hand.
Proof.
  unfold Render.throws. split.
  - destruct (Render.landmarks r) as [hands|]; [| discriminate].
    intros H. apply negb_true_iff in H.
    assert (Hex : List.existsb (fun hand => negb (Render.drawn hand)) hands = true).
    { clear -H. induction hands as [|hand hands IH]; [discriminate |].
      cbn in *. destruct (Render.drawn hand); cbn in *; auto. }
    apply List.existsb_exists in Hex as (hand & Hin & Hd).
    exists hands, hand. split_and!; try done.
    apply negb_true_iff in Hd. unfold Render.drawn in Hd.
    clear -Hd. induction hand as [|e hand IH]; [discriminate |].
    cbn in Hd. destruct e; cbn in *; auto.
  - intros (hands & hand & -> & Hin & Hu).
    apply negb_true_iff.
    destruct (forallb Render.drawn hands) eqn:E; [| reflexivity].
    rewrite List.forallb_forall in E. specialize (E hand Hin).
    unfold Render.drawn in E. rewrite List.forallb_forall in E.
    now specialize (E _ Hu).
Qed.

(** With holes for the missing entries nothing throws. *)
Lemma Render_sparse results c mounted :
  Render.handResults (Render.sparse results) = results /\
  Render.onResults mounted (Render.sparse results) c
  = (Audio.Returned, onResults mounted results c).
Proof.
  assert (Hr : Render.handResults (Render.sparse results) = results).
  { destruct results as [[hands|] labels]; unfold Render.handResults, Render.sparse;
      cbn; [| reflexivity].
    do 2 f_equal. rewrite map_map. rewrite <- (map_id hands) at 2.
    apply map_ext. intros hand. rewrite map_map. rewrite <- (map_id hand) at 2.
    apply map_ext. now intros [l|]. }
  split; [exact Hr |].
  destruct (Render_onResults_cases mounted (Render.sparse results) c)
    as [(_ & Ht & _) | (_ & E)]; [| now rewrite E, Hr].
  exfalso. apply Render_throws_iff in Ht as (hands & hand & E & Hin & Hu).
  destruct results as [[hs|] labels]; cbn in E; [| discriminate].
  injection E as <-.
  apply in_map_iff in Hin as (lms & <- & _).
  apply in_map_iff in Hu as ([l|] & Hu & _); discriminate.
Qed.

(** C9 (amended): on a frame that the callback handles to its end (the
    canvas and video are mounted and the drawing does not throw) where
    no hand can take a role, that role's detected flag is set false and
    its stored position is left as it was; for the control hand the
    gesture class falls to NONE.  The audio is then not driven from the
    retained values: with the volume hand lost the master volume target
    is the default 0.5, and with the control hand lost the pitch is
    taken as 0. *)
Theorem onResults_role_lost (r : Render.Results) (c c' : Component) :
  Render.onResults true r c = (Audio.Returned, c') ->
  (~ GestureSpec.present isControlHand (handPreference c) (Render.handResults r) ->
     controlHand c'
     = {| HandPosition.x := HandPosition.x (controlHand c);
          HandPosition.y := HandPosition.y (controlHand c);
          HandPosition.detected := false;
          HandPosition.vowel := NONE |} /\
     currentPitch c' = 0%Q) /\
  (~ GestureSpec.present isVolumeHand (handPreference c) (Render.handResults r) ->
     volumeHand c'
     = {| VolumeHand.y := VolumeHand.y (volumeHand c);
          VolumeHand.detected := false |} /\
     targetVolume c' = 0.5%Q).
Proof.
  intros Hr. apply Render_onResults_returned in Hr as [_ ->].
  split; intros Hno.
  - pose proof (onResults_control_lost _ c Hno) as E.
    split; [exact E |]. unfold currentPitch. rewrite E. reflexivity.
  - pose proof (onResults_volume_lost _ c Hno) as E.
    split; [exact E |]. unfold targetVolume. rewrite E. reflexivity.
Qed.

Lemma noHands_absent role pref : ~ GestureSpec.present role pref GestureSpec.noHands.
Proof.
  intros (k & lms & hands & E & Hk & _). cbn in E. injection E as <-.
  destruct k; discriminate.
Qed.

Lemma onResults_role_lost_witness :
  controlHand (snd (Render.onResults true Render.noHands GestureSpec.bothHandsSeen))
  = {| HandPosition.x := 0.5; HandPosition.y := 0.3;
       HandPosition.detected := false; HandPosition.vowel := NONE |} /\
  volumeHand (snd (Render.onResults true Render.noHands GestureSpec.bothHandsSeen))
  = {| VolumeHand.y := 0.1; VolumeHand.detected := false |}.
Proof.
  destruct (onResults_role_lost Render.noHands GestureSpec.bothHandsSeen
              (snd (Render.onResults true Render.noHands GestureSpec.bothHandsSeen))
              eq_refl) as [Hc Hv].
  split.
  - apply Hc, noHands_absent.
  - apply Hv, noHands_absent.
Defined.

(** C9 as stated fails: when the volume hand is lost the volume that
    drives the audio does not stay at the value of the retained
    position (0.9 here) but goes to the default 0.5, and the engine is
    told to ramp the master gain there. *)
Lemma volume_snaps_to_default :
  fst (Render.onResults true Render.noHands GestureSpec.bothHandsSeen) = Audio.Returned /\
  targetVolume GestureSpec.bothHandsSeen = 0.9%Q /\
  VolumeHand.y
    (volumeHand (snd (Render.onResults true Render.noHands GestureSpec.bothHandsSeen)))
  = 0.1%Q /\
  targetVolume (snd (Render.onResults true Render.noHands GestureSpec.bothHandsSeen))
  = 0.5%Q /\
  ~ (targetVolume (snd (Render.onResults true Render.noHands GestureSpec.bothHandsSeen))
     == targetVolume GestureSpec.bothHandsSeen)%Q /\
  Audio.calls <$> Audio.masterGain
    (snd (Render.frame 3 true Render.noHands
            (GestureSpec.bothHandsSeen, GestureSpec.readyHook,
             Audio.run GestureSpec.playing)))
  = Some [Audio.setValueAtTime 0.5 0;
          Audio.cancelScheduledValues 3;
          Audio.setValueAtTime 0.5 3;
          Audio.linearRampToValueAtTime (JS.clamp01 0.5) (3 + Audio.transitionTime)].
Proof. split_and!; try reflexivity. discriminate. Qed.

(** One hand labelled 'Left', open, with 'right' configured: it is the
    control hand, and the volume hand is reported lost. *)
Example onResults_mirrored_hand :
  onResults true
    {| multiHandLandmarks := Some [GestureSpec.openHand];
       multiHandedness := Some ["Left"] |}
    (mount (Some right))
  = {| handPreference := Some right;
       controlHand := {| HandPosition.x := 0.5; HandPosition.y := 0.2;
                         HandPosition.detected := true; HandPosition.vowel := A |};
       volumeHand := {| VolumeHand.y := 0.5; VolumeHand.detected := false |};
       lastPlayedNoteRef := None |}.
Proof. reflexivity. Qed.

End Frames.

(** ** The harmonization effect *)

Section Harmonization.
Import Tracker.


Lemma posted_harmonize note h h' :
  Harmonizer.harmonizeNoteRealTime note h = (Audio.Returned, h') ->
  Harmonizer.posted h' = Harmonizer.posted h ++ [note] /\
  Harmonizer.state h' = Harmonizer.state h.
Proof.
  unfold Harmonizer.harmonizeNoteRealTime, Harmonizer.posted.
  destruct (Harmonizer.isReady (Harmonizer.state h));
    destruct (Harmonizer.workerRef h); intros [= <-]; split; reflexivity.
Qed.

Lemma threw_harmonize note h h' :
  Harmonizer.harmonizeNoteRealTime note h = (Audio.Threw, h') -> h' = h.
Proof.
  unfold Harmonizer.harmonizeNoteRealTime.
  destruct (Harmonizer.isReady (Harmonizer.state h));
    destruct (Harmonizer.workerRef h); intros [= <-]; reflexivity.
Qed.

(** One run of the effect: either nothing is posted, or the current
    note is, and then it differs from the marker and becomes it. *)
Lemma harmonizationEffect_posts now c h e c' h' e' :
  harmonizationEffect now (c, h, e) = (c', h', e') ->
  Harmonizer.posted h' = Harmonizer.posted h \/
  (Harmonizer.posted h' = Harmonizer.posted h ++ [pitchToMidi (currentPitch c)] /\
   HandPosition.detected (controlHand c) = true /\
   HandPosition.vowel (controlHand c) <> NONE /\
   lastPlayedNoteRef c <> Some (pitchToMidi (currentPitch c)) /\
   lastPlayedNoteRef c' = Some (pitchToMidi (currentPitch c))).
Proof.
  unfold harmonizationEffect.
  destruct (HandPosition.detected (controlHand c)) eqn:Ed;
    destruct (Harmonizer.isReady (Harmonizer.state h)) eqn:Er;
    destruct (Vowel_eqb (HandPosition.vowel (controlHand c)) NONE) eqn:Ev;
    cbn [andb negb orb]; try (intros [= <- <- <-]; left; reflexivity).
  destruct (bool_decide _) eqn:Eb; [intros [= <- <- <-]; left; reflexivity |].
  apply bool_decide_eq_false in Eb.
  destruct (Harmonizer.harmonizeNoteRealTime _ h) as [[|] h1] eqn:Eh;
    intros [= <- <- <-].
  - right. apply posted_harmonize in Eh as [Ep _].
    split_and!; try assumption; try reflexivity.
    + intros Hv. rewrite Hv in Ev. discriminate.
    + congruence.
  - left. apply threw_harmonize in Eh. now subst.
Qed.

(** Detection loss or a NONE gesture clears the marker and fades the
    voices out. *)
Lemma harmonizationEffect_clears now c h e :
  HandPosition.detected (controlHand c) = false \/
  HandPosition.vowel (controlHand c) = NONE ->
  harmonizationEffect now (c, h, e)
  = (setLastPlayedNote None c, h, Audio.stopAll now e).
Proof.
  intros H. unfold harmonizationEffect.
  destruct H as [-> | ->]; cbn [andb negb orb Vowel_eqb]; [reflexivity |].
  rewrite !andb_false_r, orb_true_r. reflexivity.
Qed.






End Harmonization.

(** ** The audio engine *)

Section Engine.
Import Audio.

Lemma stop_fades now v : fades now (stop now v).
Proof.
  exists (calls (gainNode v)), (value (gainNode v)).
  split_and!; try reflexivity.
  rewrite <- (Qplus_0_r now) at 1.
  apply Qplus_lt_r. reflexivity.
Qed.


Lemma stopAll_released now e k v :
  currentVoices e !! k = Some v -> In (stop now v) (released (stopAll now e)).
Proof.
  intros H. cbn. apply in_or_app. right.
  apply list_elem_of_In, list_elem_of_fmap_2.
  apply list_elem_of_fmap. exists (k, v). split; [reflexivity |].
  now apply elem_of_map_to_list.
Qed.

Lemma stopAll_released_fade now e v :
  In v (released (stopAll now e)) -> In v (released e) \/ fades now v.
Proof.
  cbn. intros H. apply in_app_or in H as [H | H]; [now left | right].
  apply list_elem_of_In, list_elem_of_fmap in H as (v0 & -> & _).
  apply stop_fades.
Qed.

Lemma playVoices_lookup now s a t b e :
  let m := currentVoices (playVoices now s a t b e) in
  m !! "soprano" = Some (start now (newVocalVoice now s "soprano")) /\
  m !! "alto" = Some (start now (newVocalVoice now a "alto")) /\
  m !! "tenor" = Some (start now (newVocalVoice now t "tenor")) /\
  m !! "bass" = Some (start now (newVocalVoice now b "bass")).
Proof.
  cbn. rewrite !lookup_fmap. split_and!; by simplify_map_eq.
Qed.

Lemma playVoices_dom now s a t b e :
  dom (currentVoices (playVoices now s a t b e)) = satb.
Proof.
  cbn. rewrite dom_fmap_L, !dom_insert_L, dom_empty_L.
  unfold satb. set_solver.
Qed.

Lemma satb_size (m : gmap string VocalVoice) : dom m = satb -> size m = 4%nat.
Proof.
  intros H. rewrite <- size_dom, H. reflexivity.
Qed.


(** Case analysis on the step taken. *)
Ltac step_cases s :=
  destruct s as [pf now|now s a t b|pf initNow now s a t b|now|now volume|now|master perVoice];
  cbn [step].


Lemma step_gainInv e s : gainInv e -> gainInv (step e s).
Proof.
  unfold gainInv.
  intros Hinv. step_cases s.
  - unfold initialize. destruct (isInitialized e) eqn:E.
    + cbn [snd]. intros _. now apply Hinv.
    + destruct pf as [| |resumeOk]; cbn; [rewrite E; discriminate | eauto ..].
  - exact Hinv.
  - unfold playChord, initialize. destruct (isInitialized e) eqn:E.
    + cbn. intros _. now apply Hinv.
    + destruct pf as [| |[|]]; cbn; [rewrite E; discriminate | eauto ..].
  - exact Hinv.
  - unfold setMasterVolume.
    destruct (masterGain e) eqn:Eg; [| rewrite Eg; exact Hinv].
    destruct (isInitialized e) eqn:E; [cbn; eauto | rewrite Eg; eauto].
  - exact Hinv.
  - cbn. intros H. destruct (Hinv H) as [g ->]. cbn. eauto.
Qed.

Lemma fold_invariant (P : VocalAudioEngine -> Prop) :
  (forall e s, P e -> P (step e s)) ->
  forall steps e, P e -> P (fold_left step steps e).
Proof.
  intros Hstep steps. induction steps as [|s steps IH]; intros e He; [exact He |].
  cbn. apply IH, Hstep, He.
Qed.


Lemma run_gainInv steps : gainInv (run steps).
Proof.
  unfold run. apply (fold_invariant gainInv); [apply step_gainInv |].
  discriminate.
Qed.


Lemma clamp01_range v : (0 <= JS.clamp01 v <= 1)%Q.
Proof.
  unfold JS.clamp01. split.
  - apply Q.le_max_l.
  - apply Q.max_lub; [discriminate | apply Q.le_min_l].
Qed.

Lemma clamp01_inside v : (0 <= v <= 1)%Q -> (JS.clamp01 v == v)%Q.
Proof.
  intros [Hlo Hhi]. unfold JS.clamp01.
  rewrite (Q.min_r 1 v Hhi). now apply Q.max_r.
Qed.

Lemma clamp01_below v : (v <= 0)%Q -> (JS.clamp01 v == 0)%Q.
Proof.
  intros H. unfold JS.clamp01.
  apply Q.max_l. apply Qle_trans with v; [apply Q.le_min_r | exact H].
Qed.

Lemma clamp01_above v : (1 <= v)%Q -> (JS.clamp01 v == 1)%Q.
Proof.
  intros H. unfold JS.clamp01.
  rewrite (Q.min_l 1 v H). apply Q.max_r. discriminate.
Qed.



(** C8 (amended): once the engine is initialized, for every target
    [setMasterVolume] clamps the target to [0,1] and schedules, on the
    shared master gain, a linear ramp from the gain's present value to
    the clamped target over 50 ms; there is no step change.  Before the
    engine is initialized the call does nothing. *)
Theorem setMasterVolume_ramps (steps : list Step) (now volume : Q) :
  let e := run steps in
  (isInitialized e = false -> setMasterVolume now volume e = e) /\
  (isInitialized e = true ->
   exists g,
     masterGain e = Some g /\
     masterGain (setMasterVolume now volume e)
     = Some {| value := value g;
               calls := calls g ++
                 [cancelScheduledValues now;
                  setValueAtTime (value g) now;
                  linearRampToValueAtTime (JS.clamp01 volume) (now + transitionTime)] |} /\
     currentVoices (setMasterVolume now volume e) = currentVoices e /\
     (0 <= JS.clamp01 volume <= 1)%Q /\
     ((0 <= volume <= 1)%Q -> (JS.clamp01 volume == volume)%Q) /\
     ((volume <= 0)%Q -> (JS.clamp01 volume == 0)%Q) /\
     ((1 <= volume)%Q -> (JS.clamp01 volume == 1)%Q) /\
     (transitionTime == 50 # 1000)%Q /\
     (now < now + transitionTime)%Q).
Proof.
  intros e. split.
  - intros Hi. unfold setMasterVolume. rewrite Hi.
    destruct (masterGain e); reflexivity.
  - intros Hi. destruct (run_gainInv steps Hi) as [g Hg].
    exists g. fold e in Hg. unfold setMasterVolume. rewrite Hg, Hi.
    split_and!; try reflexivity.
    + apply clamp01_range.
    + apply clamp01_range.
    + apply clamp01_inside.
    + apply clamp01_below.
    + apply clamp01_above.
    + rewrite <- (Qplus_0_r now) at 1. apply Qplus_lt_r. reflexivity.
Qed.

(** Volume 1.7 asked of an engine that plays a chord at volume 0.5: a
    ramp from 0.5 to 1. *)
Lemma setMasterVolume_ramps_witness :
  isInitialized (run GestureSpec.playing) = true /\
  masterGain (setMasterVolume 2 1.7 (run GestureSpec.playing))
  = Some {| value := 0.5;
            calls := [setValueAtTime 0.5 0;
                      cancelScheduledValues 2;
                      setValueAtTime 0.5 2;
                      linearRampToValueAtTime (JS.clamp01 1.7) (2 + transitionTime)] |}.
Proof.
  split; [reflexivity |].
  destruct (setMasterVolume_ramps GestureSpec.playing 2 1.7) as [_ H].
  destruct (H eq_refl) as (g & Hg & Hset & _).
  injection Hg as <-. exact Hset.
Defined.

(** C8 as stated fails on the engine before its first chord: a target
    of 0.8 is dropped, and no ramp is scheduled on any gain. *)
Lemma setMasterVolume_before_initialize :
  setMasterVolume 0 0.8 audioEngine = audioEngine /\
  masterGain (setMasterVolume 0 0.8 audioEngine) = None.
Proof. split; reflexivity. Qed.

End Engine.

(** ** The harmonizer's response handler *)

Section Responses.
Import Harmonizer.

(** C10: a response of fewer than 4 notes has no effect: the hook's
    store (current harmony, current sequence) is as before and no chord
    reaches the audio engine.  With 4 notes or more the first four are
    tagged soprano, alto, tenor and bass in that order, and the chord
    becomes the current harmony. *)
Theorem short_response_ignored (notes : list HarmonizerNote) (h : Hook) :
  ((length notes < 4)%nat ->
   handleHarmonyReceived notes h = (h, []) /\
   forall pf initNow now c e,
     Tracker.onWorkerMessage pf initNow now (Notes (Some notes)) (c, h, e)
     = (c, h, e)) /\
  (forall n1 n2 n3 n4 rest,
     notes = n1 :: n2 :: n3 :: n4 :: rest ->
     let chord := {| soprano := n1; alto := n2; tenor := n3; bass := n4 |} in
     snd (handleHarmonyReceived notes h) = [chord] /\
     currentHarmony (fst (handleHarmonyReceived notes h)) = Some chord).
Proof.
  split.
  - intros Hlen.
    assert (E : handleHarmonyReceived notes h = (h, [])).
    { unfold handleHarmonyReceived.
      apply Nat.ltb_lt in Hlen. now rewrite Hlen. }
    split; [exact E |].
    intros pf initNow now c e. unfold Tracker.onWorkerMessage. cbn [onmessage].
    rewrite E. reflexivity.
  - intros n1 n2 n3 n4 rest -> chord.
    unfold handleHarmonyReceived. cbn [length Nat.ltb Nat.leb].
    split; [reflexivity |].
    cbn [fst]. destruct (negb (isRealTimeMode h)), (sequenceRef h); reflexivity.
Qed.

Lemma short_response_ignored_witness :
  handleHarmonyReceived [{| midiNote := 60 |}; {| midiNote := 64 |}; {| midiNote := 67 |}]
                        GestureSpec.readyHook
  = (GestureSpec.readyHook, []).
Proof.
  destruct (short_response_ignored
              [{| midiNote := 60 |}; {| midiNote := 64 |}; {| midiNote := 67 |}]
              GestureSpec.readyHook) as [H _].
  destruct H as [E _]; [cbn; lia | exact E].
Defined.

End Responses.

(** ** The end-to-end scenario *)

Section Scenario.
Import Tracker.

(** The hand appears: one request, for the lowest note of the scale. *)
Example scenario_request :
  Harmonizer.posted (snd (fst GestureSpec.appeared)) = [Some 60] /\
  lastPlayedNoteRef (fst (fst GestureSpec.appeared)) = Some (Some 60).
Proof. split; reflexivity. Qed.

(** The response arrives: four voices on the notes of the chord. *)
Example scenario_chord :
  let voices := Audio.currentVoices (snd GestureSpec.answered) in
  size voices = 4%nat /\
  Audio.midiNote <$> voices !! "soprano" = Some 60 /\
  Audio.midiNote <$> voices !! "alto" = Some 64 /\
  Audio.midiNote <$> voices !! "tenor" = Some 67 /\
  Audio.midiNote <$> voices !! "bass" = Some 72.
Proof. split_and!; reflexivity. Qed.

(** The hand goes away: no voice is left, four are fading out, and the
    marker is cleared. *)
Example scenario_silence :
  Audio.currentVoices (snd GestureSpec.vanished) = ∅ /\
  length (Audio.released (snd GestureSpec.vanished)) = 4%nat /\
  Forall (Audio.fades 2) (Audio.released (snd GestureSpec.vanished)) /\
  lastPlayedNoteRef (fst (fst GestureSpec.vanished)) = None.
Proof.
  split_and!; try reflexivity.
  apply Forall_forall. intros v Hv.
  apply list_elem_of_In in Hv.
  apply stopAll_released_fade in Hv as [Hv | Hv]; [| exact Hv].
  vm_compute in Hv. destruct Hv.
Qed.

End Scenario.

(** * Further properties *)

(** ** Heights, pitches and volumes *)

Section Heights.
Import Tracker.

Lemma clamp01_mono a b : (a <= b)%Q -> (JS.clamp01 a <= JS.clamp01 b)%Q.
Proof.
  intros H. unfold JS.clamp01.
  apply Q.max_le_compat_l, Q.min_le_compat_l, H.
Qed.

Lemma getPitchFromY_range y : (0 <= getPitchFromY y <= 1)%Q.
Proof. apply clamp01_range. Qed.

Lemma getPitchFromY_antitone y1 y2 :
  (y1 <= y2)%Q -> (getPitchFromY y2 <= getPitchFromY y1)%Q.
Proof.
  intros H. apply clamp01_mono.
  apply Qplus_le_r, Qopp_le_compat, H.
Qed.

Lemma currentPitch_range c : (0 <= currentPitch c <= 1)%Q.
Proof.
  unfold currentPitch. destruct (HandPosition.detected (controlHand c)).
  - apply getPitchFromY_range.
  - split; discriminate.
Qed.

(** X1: [pitchToMidi] gives a note exactly for pitches from 0 up to,
    but not including, 10/9; below 0 and from 10/9 on it gives
    [undefined]. *)
Theorem pitchToMidi_defined_iff (pitch : Q) :
  (exists n, pitchToMidi pitch = Some n) <-> (0 <= pitch)%Q /\ (pitch < 10 # 9)%Q.
Proof.
  assert (Hidx : (exists n, pitchToMidi pitch = Some n) <-> 0 <= keyIndex pitch <= 9).
  { split.
    - intros [n Hn]. unfold pitchToMidi, JS.index in Hn.
      destruct (keyIndex pitch <? 0) eqn:E; [discriminate |].
      apply Z.ltb_ge in E.
      assert (Hlt : (Z.to_nat (keyIndex pitch) < length whiteKeys)%nat).
      { apply nth_error_Some. congruence. }
      assert (Hlen : length whiteKeys = 10%nat) by reflexivity.
      lia.
    - intros H. destruct (index_defined _ H) as (n & Hn & _). now exists n. }
  rewrite Hidx, keyIndex_floor.
  pose proof (Qfloor_le (pitch * 9)) as Hle.
  pose proof (Qlt_floor (pitch * 9)) as Hlt.
  split.
  - intros [H0 H9]. split.
    + apply (Qmult_le_r 0 pitch 9); [reflexivity |].
      apply Qle_trans with (inject_Z (Qfloor (pitch * 9))); [| exact Hle].
      change (inject_Z 0 <= inject_Z (Qfloor (pitch * 9)))%Q.
      rewrite <- Zle_Qle. exact H0.
    + apply (Qmult_lt_r pitch (10 # 9) 9); [reflexivity |].
      apply Qlt_le_trans with (inject_Z (Qfloor (pitch * 9) + 1)); [exact Hlt |].
      apply Qle_trans with (inject_Z 10); [| discriminate].
      rewrite <- Zle_Qle. lia.
  - intros [H0 H9]. split.
    + change 0 with (Qfloor 0).
      apply Qfloor_resp_le, Qmult_le_0_compat; [assumption | discriminate].
    + assert (H : (inject_Z (Qfloor (pitch * 9)) < inject_Z 10)%Q).
      { apply Qle_lt_trans with (pitch * 9)%Q; [exact Hle |].
        apply Qlt_le_trans with ((10 # 9) * 9)%Q; [| discriminate].
        apply Qmult_lt_r; [reflexivity | exact H9]. }
      rewrite <- Zlt_Qlt in H. lia.
Qed.

(** X2: whatever the height of the fingertip, also outside the picture,
    the melody note is a key of the scale, and a hand that is higher in
    the picture (smaller y) never gives a lower note. *)
Theorem note_of_any_height (y1 y2 : Q) :
  (y1 <= y2)%Q ->
  exists n1 n2,
    pitchToMidi (getPitchFromY y1) = Some n1 /\
    pitchToMidi (getPitchFromY y2) = Some n2 /\
    In n1 whiteKeys /\ In n2 whiteKeys /\ n2 <= n1.
Proof.
  intros H.
  destruct (pitchToMidi_defined _ (getPitchFromY_range y1)) as (n1 & E1 & I1).
  destruct (pitchToMidi_defined _ (getPitchFromY_range y2)) as (n2 & E2 & I2).
  exists n1, n2. split_and!; try assumption.
  eapply (pitchToMidi_mono (getPitchFromY y2) (getPitchFromY y1)); eauto.
  - apply getPitchFromY_range.
  - now apply getPitchFromY_antitone.
  - apply getPitchFromY_range.
Qed.

Lemma note_of_any_height_witness :
  exists n1 n2,
    pitchToMidi (getPitchFromY (-3)) = Some n1 /\
    pitchToMidi (getPitchFromY 7) = Some n2 /\
    In n1 whiteKeys /\ In n2 whiteKeys /\ n2 <= n1.
Proof. apply (note_of_any_height (-3) 7). discriminate. Defined.

(** X3: the volume the component asks of the engine is always within
    [0,1], so the engine's own clamp leaves it as it is; it is 1 - y for
    a volume hand seen within the picture, and a higher volume hand
    never asks for less. *)
Theorem targetVolume_within_range (c c' : Component) :
  (0 <= targetVolume c <= 1)%Q /\
  (JS.clamp01 (targetVolume c) == targetVolume c)%Q /\
  (VolumeHand.detected (volumeHand c) = true ->
   (0 <= VolumeHand.y (volumeHand c) <= 1)%Q ->
   (targetVolume c == 1 - VolumeHand.y (volumeHand c))%Q) /\
  (VolumeHand.detected (volumeHand c) = true ->
   VolumeHand.detected (volumeHand c') = true ->
   (VolumeHand.y (volumeHand c) <= VolumeHand.y (volumeHand c'))%Q ->
   (targetVolume c' <= targetVolume c)%Q).
Proof.
  assert (Hr : forall d, (0 <= targetVolume d <= 1)%Q).
  { intros d. unfold targetVolume, currentVolume.
    destruct (VolumeHand.detected (volumeHand d)).
    - apply clamp01_range.
    - split; discriminate. }
  split_and!.
  - apply Hr.
  - apply Hr.
  - apply clamp01_inside, Hr.
  - intros Hd [Hlo Hhi]. unfold targetVolume, currentVolume. rewrite Hd.
    unfold getVolumeFromY. apply clamp01_inside. split; lra.
  - intros Hd Hd' Hy. unfold targetVolume, currentVolume. rewrite Hd, Hd'.
    apply clamp01_mono, Qplus_le_r, Qopp_le_compat, Hy.
Qed.

Lemma targetVolume_within_range_witness :
  (targetVolume GestureSpec.bothHandsSeen == 1 - 0.1)%Q.
Proof.
  destruct (targetVolume_within_range GestureSpec.bothHandsSeen
              GestureSpec.bothHandsSeen) as (_ & _ & H & _).
  apply H; [reflexivity | split; discriminate].
Defined.

End Heights.

(** ** Frames and roles *)

Section Roles.
Import Tracker.

Lemma forEachHand_app pref results l1 l2 :
  forall handIndex data,
    forEachHand pref results handIndex (l1 ++ l2) data
    = forEachHand pref results (handIndex + length l1) l2
        (forEachHand pref results handIndex l1 data).
Proof.
  induction l1 as [|lm l1 IH]; intros handIndex data; cbn [app forEachHand length].
  - now rewrite Nat.add_0_r.
  - rewrite IH. f_equal. lia.
Qed.

Lemma storeHand_controls pref results data handIndex landmarks indexTip :
  isControlHand pref (handednessOf results handIndex) = true ->
  JS.at_ landmarks 8 = Some indexTip ->
  storeHand pref results data handIndex landmarks
  = (Some (Session.controlData landmarks indexTip), snd data).
Proof.
  intros Hc Ht. unfold storeHand.
  rewrite Hc, (at_8_length _ _ Ht), Ht. reflexivity.
Qed.

(** What the callback stores as control data is marked detected. *)
Lemma storeHand_control_detected pref results data handIndex landmarks d :
  fst (storeHand pref results data handIndex landmarks) = Some d ->
  fst data = Some d \/
  (Session.controls pref results handIndex landmarks /\
   exists indexTip, JS.at_ landmarks 8 = Some indexTip /\
                    d = Session.controlData landmarks indexTip).
Proof.
  unfold storeHand, Session.controls.
  destruct (isControlHand pref (handednessOf results handIndex)) eqn:Ec; cbn [andb].
  - destruct (8 <? length landmarks)%nat.
    + destruct (JS.at_ landmarks 8) as [tip|] eqn:Et; cbn [fst].
      * intros [= <-]. right. split; [split; congruence | eauto].
      * now left.
    + rewrite (roles_exclusive _ _ Ec). cbn [andb]. now left.
  - destruct (isVolumeHand pref (handednessOf results handIndex)
              && (8 <? length landmarks)%nat); [| now left].
    destruct (JS.at_ landmarks 8); now left.
Qed.

Lemma forEachHand_control_source pref results hands :
  forall handIndex data d,
    fst (forEachHand pref results handIndex hands data) = Some d ->
    fst data = Some d \/
    exists k landmarks indexTip,
      nth_error hands k = Some landmarks /\
      Session.controls pref results (handIndex + k) landmarks /\
      JS.at_ landmarks 8 = Some indexTip /\
      d = Session.controlData landmarks indexTip.
Proof.
  induction hands as [|lm hands IH]; intros handIndex data d H; cbn [forEachHand] in H.
  - now left.
  - apply IH in H as [H | (k & lms & tip & Hk & Hc & Ht & ->)].
    + apply storeHand_control_detected in H as [H | (Hc & tip & Ht & ->)];
        [now left | right].
      exists 0%nat, lm, tip. rewrite Nat.add_0_r. auto.
    + right. exists (S k), lms, tip.
      replace (handIndex + S k)%nat with (S handIndex + k)%nat by lia. auto.
Qed.

Lemma onResults_shape results c :
  onResults true results c
  = setHands (controlHand (onResults true results c))
             (volumeHand (onResults true results c)) c.
Proof.
  unfold onResults. cbn [negb].
  destruct (multiHandLandmarks results) as [[|l hands]|]; try reflexivity.
  destruct (forEachHand _ _ _ _ _) as [cd vd]. reflexivity.
Qed.

Lemma storeHand_keeps_control pref results data handIndex landmarks :
  fst data <> None ->
  fst (storeHand pref results data handIndex landmarks) <> None.
Proof.
  intros H. unfold storeHand.
  destruct (isControlHand _ _ && _).
  - destruct (JS.at_ landmarks 8); [discriminate | exact H].
  - destruct (isVolumeHand _ _ && _); [| exact H].
    destruct (JS.at_ landmarks 8); exact H.
Qed.

Lemma forEachHand_keeps_control pref results hands :
  forall handIndex data,
    fst data <> None ->
    fst (forEachHand pref results handIndex hands data) <> None.
Proof.
  induction hands as [|lm hands IH]; intros handIndex data H; cbn [forEachHand].
  - exact H.
  - apply IH, storeHand_keeps_control, H.
Qed.

(** Once the hands are set from a frame, the control hand is marked
    detected exactly when some hand of the frame can take the control
    role. *)
Lemma update_detected_iff_present (results : HandResults) (c : Component) :
  HandPosition.detected (controlHand (onResults true results c)) = true
  <-> GestureSpec.present isControlHand (handPreference c) results.
Proof.
  split.
  - unfold onResults. cbn [negb].
    destruct (multiHandLandmarks results) as [[|l hands]|] eqn:E;
      try (cbn; discriminate).
    destruct (forEachHand _ _ _ _ _) as [cd vd] eqn:Ef.
    destruct cd as [d|]; [| cbn; discriminate].
    intros _.
    destruct (forEachHand_control_source (handPreference c) results (l :: hands)
                0%nat (None, None) d) as
      [H | (k & lms & tip & Hk & [Hc _] & Ht & _)].
    { now rewrite Ef. }
    + discriminate.
    + exists k, lms, (l :: hands). split_and!; try assumption. congruence.
  - intros (k & lms & hands & E & Hk & Hc & Ht).
    unfold onResults. cbn [negb]. rewrite E.
    destruct hands as [|l hands]; [destruct k; discriminate |].
    destruct (forEachHand _ _ _ _ _) as [cd vd] eqn:Ef.
    destruct cd as [d|].
    + cbn [setHands controlHand].
      destruct (forEachHand_control_source (handPreference c) results (l :: hands)
                  0%nat (None, None) d) as
        [H | (k' & lms' & tip' & Hk' & Hc' & Ht' & ->)];
        [now rewrite Ef | discriminate | reflexivity].
    + exfalso.
      apply nth_error_split in Hk as (l1 & l2 & Hsplit & Hlen).
      rewrite Hsplit, forEachHand_app in Ef. cbn [forEachHand] in Ef.
      destruct (JS.at_ lms 8) as [tip|] eqn:Et; [| congruence].
      rewrite Hlen in Ef.
      rewrite (storeHand_controls _ _ _ _ _ tip Hc Et) in Ef.
      apply (f_equal fst) in Ef. cbn [fst] in Ef. revert Ef.
      apply forEachHand_keeps_control. discriminate.
Qed.

(** When several hands can take the control role, the hands are set
    from the last of them. *)
Lemma update_last_control_hand (results : HandResults) (c : Component)
        (before after : list Landmarks) (landmarks : Landmarks)
        (indexTip : Landmark.t) :
  multiHandLandmarks results = Some (before ++ landmarks :: after) ->
  isControlHand (handPreference c) (handednessOf results (length before)) = true ->
  JS.at_ landmarks 8 = Some indexTip ->
  (forall k lms, nth_error after k = Some lms ->
     ~ Session.controls (handPreference c) results (S (length before) + k) lms) ->
  controlHand (onResults true results c) = Session.controlData landmarks indexTip.
Proof.
  intros E Hc Ht Hafter.
  unfold onResults. cbn [negb]. rewrite E.
  destruct (before ++ landmarks :: after) as [|l hands] eqn:El.
  { destruct before; discriminate. }
  rewrite <- El. rewrite forEachHand_app. cbn [forEachHand].
  rewrite (storeHand_controls _ _ _ _ _ indexTip Hc Ht).
  destruct (forEachHand (handPreference c) results (S (0 + length before)) after _)
    as [cd vd] eqn:Ef.
  assert (Hcd : cd = Some (Session.controlData landmarks indexTip)).
  { change cd with (fst (cd, vd)). rewrite <- Ef.
    rewrite forEachHand_no_control; [reflexivity |].
    intros k lms Hk Hck.
    destruct (JS.at_ lms 8) eqn:Et; [| reflexivity].
    exfalso. apply (Hafter k lms Hk). split; [exact Hck | congruence]. }
  subst cd. reflexivity.
Qed.

(** Without a label 'Left' or 'Right' no hand is given a role. *)
Lemma update_no_label (results : HandResults) (c : Component) :
  (forall k, handednessOf results k <> "Left" /\ handednessOf results k <> "Right") ->
  onResults true results c
  = setHands (controlLost (controlHand c)) (volumeLost (volumeHand c)) c.
Proof.
  intros H.
  assert (Hno : forall k, isControlHand (handPreference c) (handednessOf results k) = false
                          /\ isVolumeHand (handPreference c) (handednessOf results k) = false).
  { intros k. destruct (H k) as [Hl Hr].
    unfold isControlHand, isVolumeHand.
    destruct (String.eqb_spec (handednessOf results k) "Right"); [contradiction |].
    destruct (String.eqb_spec (handednessOf results k) "Left"); [contradiction |].
    now rewrite !andb_false_r. }
  rewrite onResults_shape.
  rewrite onResults_control_lost, onResults_volume_lost; [reflexivity | |].
  - intros (k & lms & hands & _ & _ & Hr & _).
    destruct (Hno k) as [_ Hv]. congruence.
  - intros (k & lms & hands & _ & _ & Hr & _).
    destruct (Hno k) as [Hc _]. congruence.
Qed.

(** X4: the callback throws exactly when an entry of some hand's
    landmark array is [undefined] or [null], and then, as when the
    canvas is not mounted, the component's state is as it was before
    the frame, whatever the frame shows.  When it returns, the control
    hand is marked detected exactly when some hand of the frame can
    take the control role: its label assigns it the role and its index
    fingertip is there. *)
Theorem control_detected_iff_present (r : Render.Results) (c : Component) :
  Render.onResults false r c = (Audio.Returned, c) /\
  (fst (Render.onResults true r c) = Audio.Threw <->
     exists hands hand,
       Render.landmarks r = Some hands /\ In hand hands /\
       In Render.Undefined hand) /\
  (fst (Render.onResults true r c) = Audio.Threw ->
     snd (Render.onResults true r c) = c) /\
  (fst (Render.onResults true r c) = Audio.Returned ->
     (HandPosition.detected (controlHand (snd (Render.onResults true r c))) = true
      <-> GestureSpec.present isControlHand (handPreference c)
            (Render.handResults r))).
Proof.
  split_and!.
  - reflexivity.
  - rewrite <- Render_throws_iff.
    destruct (Render_onResults_cases true r c) as [(_ & Ht & E) | ([|Ht] & E)];
      rewrite E, ?Ht; cbn [fst]; split; congruence.
  - destruct (Render_onResults_cases true r c) as [(_ & _ & E) | (_ & E)];
      rewrite E; cbn [fst snd]; congruence.
  - destruct (Render_onResults_cases true r c) as [(_ & _ & E) | (_ & E)];
      rewrite E; cbn [fst snd]; [discriminate |].
    intros _. apply update_detected_iff_present.
Qed.

(** X5: when several hands of a frame can take the control role, and
    the callback gets to its end, the last of them in the frame's list
    is the one whose fingertip and gesture are stored. *)
Theorem last_control_hand_wins (r : Render.Results) (c : Component)
        (before after : list (list Render.Entry)) (hand : list Render.Entry)
        (indexTip : Landmark.t) :
  Render.landmarks r = Some (before ++ hand :: after) ->
  fst (Render.onResults true r c) = Audio.Returned ->
  isControlHand (handPreference c)
                (handednessOf (Render.handResults r) (length before)) = true ->
  nth_error hand 8 = Some (Render.Point indexTip) ->
  (forall k lms, nth_error after k = Some lms ->
     ~ Session.controls (handPreference c) (Render.handResults r)
         (S (length before) + k) (map Render.entry lms)) ->
  controlHand (snd (Render.onResults true r c))
  = Session.controlData (map Render.entry hand) indexTip.
Proof.
  intros E Hret Hc Ht Hafter.
  destruct (Render_onResults_cases true r c) as [(_ & _ & E') | (_ & E')];
    rewrite E' in *; cbn [fst snd] in *; [discriminate |].
  apply (update_last_control_hand (Render.handResults r) c
           (map (map Render.entry) before) (map (map Render.entry) after)).
  - unfold Render.handResults. rewrite E. cbn. now rewrite map_app.
  - now rewrite length_map.
  - unfold JS.at_. rewrite nth_error_map, Ht. reflexivity.
  - intros k lms Hk. rewrite nth_error_map in Hk.
    destruct (nth_error after k) as [lms'|] eqn:Ek; [| discriminate].
    injection Hk as <-. rewrite length_map. now apply Hafter.
Qed.

Lemma last_control_hand_wins_witness :
  controlHand (snd (Render.onResults true Render.twoLeftHands (mount (Some right))))
  = {| HandPosition.x := 0.5; HandPosition.y := 0.2;
       HandPosition.detected := true; HandPosition.vowel := A |}.
Proof.
  apply (last_control_hand_wins Render.twoLeftHands (mount (Some right))
           [map (fun l => match l with
                          | Some landmark => Render.Point landmark
                          | None => Render.Hole
                          end) GestureSpec.closedHand]
           []
           (map (fun l => match l with
                          | Some landmark => Render.Point landmark
                          | None => Render.Hole
                          end) GestureSpec.openHand)
           {| Landmark.x := 0.5; Landmark.y := 0.2; Landmark.z := None |});
    try reflexivity.
  intros k lms Hk. destruct k; discriminate.
Defined.

(** X6: a hand whose label is neither 'Left' nor 'Right' is given no
    role, so a frame of such hands (or one that comes without labels),
    handled to its end, reports both hands lost, whatever it shows. *)
Theorem no_role_without_label (r : Render.Results) (c : Component) :
  (forall k, handednessOf (Render.handResults r) k <> "Left" /\
             handednessOf (Render.handResults r) k <> "Right") ->
  fst (Render.onResults true r c) = Audio.Returned ->
  snd (Render.onResults true r c)
  = setHands (controlLost (controlHand c)) (volumeLost (volumeHand c)) c.
Proof.
  intros H Hret.
  destruct (Render_onResults_cases true r c) as [(_ & _ & E) | (_ & E)];
    rewrite E in *; cbn [fst snd] in *; [discriminate |].
  now apply update_no_label.
Qed.

Lemma no_role_without_label_witness :
  snd (Render.onResults true Render.unlabelledHand GestureSpec.bothHandsSeen)
  = setHands (controlLost (controlHand GestureSpec.bothHandsSeen))
             (volumeLost (volumeHand GestureSpec.bothHandsSeen))
             GestureSpec.bothHandsSeen.
Proof.
  apply (no_role_without_label Render.unlabelledHand GestureSpec.bothHandsSeen).
  - intros k. split; discriminate.
  - reflexivity.
Defined.

(** A hand with an [undefined] entry: the callback throws, and the
    control hand that was lost stays lost although the hand is there
    with its fingertip. *)
Example onResults_throws_on_undefined :
  Render.onResults true Render.brokenHand (mount (Some right))
  = (Audio.Threw, mount (Some right)) /\
  GestureSpec.present isControlHand (Some right)
    (Render.handResults Render.brokenHand).
Proof.
  split; [reflexivity |].
  eexists 0%nat, _, _. split_and!; try reflexivity. discriminate.
Qed.

End Roles.

(** ** Requests over frames *)

Section Requests.
Import Tracker.

Lemma frame_posts now results c h e c' h' e' :
  frame now true results (c, h, e) = (c', h', e') ->
  Harmonizer.posted h' = Harmonizer.posted h \/
  exists n, In n whiteKeys /\
            Harmonizer.posted h' = Harmonizer.posted h ++ [Some n].
Proof.
  unfold frame. intros E.
  apply harmonizationEffect_posts in E as [E | (E & _)]; [now left | right].
  destruct (pitchToMidi_defined _ (currentPitch_range (onResults true results c)))
    as (n & Hn & Hin).
  exists n. split; [exact Hin |]. now rewrite E, Hn.
Qed.

(** X7: over any run of frames the notes sent to the harmonizer are keys
    of the scale: no request is ever made for [undefined] or for a note
    outside C4..E5. *)
Theorem requests_are_white_keys (fs : list (Q * HandResults)) (s : System) :
  Forall Session.whiteNote (Harmonizer.posted (snd (fst s))) ->
  Forall Session.whiteNote (Harmonizer.posted (snd (fst (Session.frames fs s)))).
Proof.
  unfold Session.frames. revert s.
  induction fs as [|[now results] fs IH]; intros [[c h] e] H; [exact H |].
  cbn [fold_left fst snd].
  destruct (frame now true results (c, h, e)) as [[c' h'] e'] eqn:E.
  apply IH. cbn [fst snd] in *.
  apply frame_posts in E as [-> | (n & Hin & ->)]; [exact H |].
  apply Forall_app. split; [exact H |].
  constructor; [| constructor]. exists n. auto.
Qed.

Lemma requests_are_white_keys_witness :
  Forall Session.whiteNote
    (Harmonizer.posted
       (snd (fst (Session.frames [(0%Q, GestureSpec.lowOpenHand); (1%Q, GestureSpec.noHands)]
                    (mount (Some right), GestureSpec.readyHook, Audio.audioEngine))))).
Proof.
  apply (requests_are_white_keys
           [(0%Q, GestureSpec.lowOpenHand); (1%Q, GestureSpec.noHands)]
           (mount (Some right), GestureSpec.readyHook, Audio.audioEngine)).
  constructor.
Defined.



Lemma volumeEffect_voices now c e :
  Audio.currentVoices (volumeEffect now c e) = Audio.currentVoices e /\
  Audio.released (volumeEffect now c e) = Audio.released e.
Proof.
  unfold volumeEffect, Audio.setMasterVolume.
  destruct (Audio.masterGain e); [| auto].
  destruct (Audio.isInitialized e); auto.
Qed.

(** X9: a frame, handled to its end, in which no hand can take the
    control role.  If the control hand was detected before it, the
    harmonization effect runs and silences the engine: every voice that
    was sounding is told to fade out from the frame's time, none is
    left in the map and the last-note marker is cleared.  If the
    control hand was lost already, the effect's dependencies are as
    they were and it does not run: the voices of a chord that has
    arrived in between keep sounding.  Nothing is sent to the
    harmonizer in either case. *)
Theorem frame_without_control_hand (now : Q) (r : Render.Results)
        (c : Component) (h : Harmonizer.Hook) (e : Audio.VocalAudioEngine) :
  fst (Render.onResults true r c) = Audio.Returned ->
  ~ GestureSpec.present isControlHand (handPreference c) (Render.handResults r) ->
  let '(c', h', e') := Render.frame now true r (c, h, e) in
  h' = h /\
  controlHand c' = controlLost (controlHand c) /\
  (HandPosition.detected (controlHand c) = true ->
     Audio.currentVoices e' = ∅ /\
     (forall k v, Audio.currentVoices e !! k = Some v ->
        In (Audio.stop now v) (Audio.released e')) /\
     lastPlayedNoteRef c' = None) /\
  (HandPosition.detected (controlHand c) = false ->
   HandPosition.vowel (controlHand c) = NONE ->
     Audio.currentVoices e' = Audio.currentVoices e /\
     Audio.released e' = Audio.released e /\
     lastPlayedNoteRef c' = lastPlayedNoteRef c).
Proof.
  intros Hret Hno. unfold Render.frame.
  destruct (Render_onResults_cases true r c) as [(_ & _ & E) | (_ & E)];
    rewrite E in *; cbn [fst] in Hret; [discriminate |].
  set (c1 := onResults true (Render.handResults r) c).
  assert (Hc1 : controlHand c1 = controlLost (controlHand c))
    by (apply onResults_control_lost, Hno).
  assert (Hp1 : currentPitch c1 = 0%Q) by (unfold currentPitch; now rewrite Hc1).
  assert (Hl1 : lastPlayedNoteRef c1 = lastPlayedNoteRef c).
  { unfold c1. rewrite onResults_shape. reflexivity. }
  set (e1 := if Render.volumeDepsChanged c c1 then volumeEffect now c1 e else e).
  assert (He1 : Audio.currentVoices e1 = Audio.currentVoices e /\
                Audio.released e1 = Audio.released e).
  { unfold e1. destruct (Render.volumeDepsChanged c c1); [| auto].
    apply volumeEffect_voices. }
  destruct He1 as [Hv1 Hr1].
  destruct (HandPosition.detected (controlHand c)) eqn:Ed.
  - assert (Hch : Render.harmonizationDepsChanged c h c1 h = true).
    { unfold Render.harmonizationDepsChanged. now rewrite Ed, Hc1. }
    rewrite Hch, harmonizationEffect_clears by (left; now rewrite Hc1).
    split_and!; try done.
    intros _. split_and!; try reflexivity.
    intros k v Hk. apply (stopAll_released now _ k). now rewrite Hv1.
  - destruct (Render.harmonizationDepsChanged c h c1 h) eqn:Hch.
    + rewrite harmonizationEffect_clears by (left; now rewrite Hc1).
      split_and!; try done.
      intros _ Hvow. exfalso. revert Hch.
      unfold Render.harmonizationDepsChanged.
      rewrite Ed, Hc1, Hvow, Hp1. unfold currentPitch. rewrite Ed.
      cbn. now destruct (Harmonizer.isReady (Harmonizer.state h)).
    + split_and!; try done.
Qed.

Lemma frame_without_control_hand_witness :
  Audio.currentVoices (snd (Render.frame 2 true Render.noHands GestureSpec.answered)) = ∅ /\
  size (Audio.currentVoices (snd Render.late)) = 4%nat /\
  Audio.currentVoices (snd (Render.frame 3 true Render.noHands Render.late))
  = Audio.currentVoices (snd Render.late).
Proof.
  pose proof (frame_without_control_hand 2 Render.noHands
                (fst (fst GestureSpec.answered)) (snd (fst GestureSpec.answered))
                (snd GestureSpec.answered) eq_refl (noHands_absent _ _)) as H1.
  pose proof (frame_without_control_hand 3 Render.noHands
                (fst (fst Render.late)) (snd (fst Render.late))
                (snd Render.late) eq_refl (noHands_absent _ _)) as H2.
  split_and!.
  - destruct GestureSpec.answered as [[c h] e] eqn:Es. cbn [fst snd] in H1.
    destruct (Render.frame 2 true Render.noHands (c, h, e)) as [[c' h'] e'].
    destruct H1 as (_ & _ & H1 & _). apply H1.
    apply (f_equal (fun s => HandPosition.detected (controlHand (fst (fst s))))) in Es.
    symmetry. exact Es.
  - vm_compute. reflexivity.
  - destruct Render.late as [[c h] e] eqn:Es. cbn [fst snd] in H2.
    destruct (Render.frame 3 true Render.noHands (c, h, e)) as [[c' h'] e'].
    destruct H2 as (_ & _ & _ & H2).
    apply H2.
    + apply (f_equal (fun s => HandPosition.detected (controlHand (fst (fst s))))) in Es.
      symmetry. exact Es.
    + apply (f_equal (fun s => HandPosition.vowel (controlHand (fst (fst s))))) in Es.
      symmetry. exact Es.
Defined.

End Requests.

(** ** The classifier on a hand turned upside down, and in the older
    component *)

Section Symmetry.
Import Tracker.

Lemma lt_flip a b : JS.lt (1 - a) (1 - b) = JS.lt b a.
Proof.
  destruct (JS.lt b a) eqn:E.
  - apply lt_spec in E. apply lt_spec. lra.
  - destruct (JS.lt (1 - a) (1 - b)) eqn:E'; [| reflexivity].
    apply lt_spec in E'. assert (H : (b < a)%Q) by lra.
    apply lt_spec in H. congruence.
Qed.

Lemma at_flip landmarks i :
  JS.at_ (Session.flip landmarks) i
  = option_map Session.flipLandmark (JS.at_ landmarks i).
Proof.
  unfold JS.at_, Session.flip. rewrite nth_error_map.
  destruct (nth_error landmarks i) as [[l|]|]; reflexivity.
Qed.

Lemma validFingers_flip landmarks :
  validFingers (Session.flip landmarks)
  = map (fun f => (Session.flipLandmark (fst f), Session.flipLandmark (snd f))) (validFingers landmarks).
Proof.
  unfold validFingers, fingers. rewrite !at_flip.
  destruct (JS.at_ landmarks 8), (JS.at_ landmarks 6),
    (JS.at_ landmarks 12), (JS.at_ landmarks 10),
    (JS.at_ landmarks 16), (JS.at_ landmarks 14),
    (JS.at_ landmarks 20), (JS.at_ landmarks 18); reflexivity.
Qed.

Lemma filter_map_length {S T} (f : S -> T) (P : T -> bool) (R : S -> bool) (l : list S) :
  (forall a, P (f a) = R a) ->
  length (List.filter P (map f l)) = length (List.filter R l).
Proof.
  intros H. induction l as [|a l IH]; [reflexivity |].
  cbn. rewrite H. destruct (R a); cbn; now rewrite IH.
Qed.

Lemma extended_flip landmarks :
  extendedFingers (Session.flip landmarks) = foldedFingers landmarks.
Proof.
  unfold extendedFingers, foldedFingers. rewrite validFingers_flip.
  apply filter_map_length. intros [tip pip]. cbn. apply lt_flip.
Qed.

Lemma folded_flip landmarks :
  foldedFingers (Session.flip landmarks) = extendedFingers landmarks.
Proof.
  unfold extendedFingers, foldedFingers. rewrite validFingers_flip.
  apply filter_map_length. intros [tip pip]. cbn. apply lt_flip.
Qed.

(** X10: turning a hand upside down in the picture (y becomes 1 - y for
    every landmark) exchanges the open and the closed gesture and
    leaves an unclear one unclear. *)
Theorem detectVowel_upside_down (landmarks : Landmarks) :
  detectVowel (Some (Session.flip landmarks))
  = Session.swap (detectVowel (Some landmarks)).
Proof.
  pose proof (extended_folded_le landmarks) as Hsum.
  pose proof (validFingers_le_4 landmarks) as H4.
  unfold detectVowel.
  rewrite extended_flip, folded_flip, validFingers_flip.
  unfold Session.flip at 1. rewrite !length_map.
  destruct (length landmarks <? 21)%nat; [reflexivity |].
  destruct (length (validFingers landmarks) <? 3)%nat; [reflexivity |].
  destruct (3 <=? extendedFingers landmarks)%nat eqn:Ee;
    destruct (3 <=? foldedFingers landmarks)%nat eqn:Ef; try reflexivity.
  apply Nat.leb_le in Ee, Ef. lia.
Qed.

Lemma fingers_all_valid landmarks :
  length (validFingers landmarks) = 4%nat ->
  forall cmp,
    Legacy.countFingers cmp (fingers landmarks)
    = Some (length (List.filter (fun f => cmp (Landmark.y (fst f)) (Landmark.y (snd f)))
                                (validFingers landmarks))).
Proof.
  unfold validFingers, fingers. intros H cmp.
  destruct (JS.at_ landmarks 8), (JS.at_ landmarks 6),
    (JS.at_ landmarks 12), (JS.at_ landmarks 10),
    (JS.at_ landmarks 16), (JS.at_ landmarks 14),
    (JS.at_ landmarks 20), (JS.at_ landmarks 18); try discriminate H.
  cbn.
  repeat match goal with |- context [cmp ?a ?b] => destruct (cmp a b) end;
    reflexivity.
Qed.

Lemma fingers_some_missing landmarks :
  (length (validFingers landmarks) < 4)%nat ->
  forall cmp, Legacy.countFingers cmp (fingers landmarks) = None.
Proof.
  unfold validFingers, fingers. intros H cmp.
  destruct (JS.at_ landmarks 8), (JS.at_ landmarks 6),
    (JS.at_ landmarks 12), (JS.at_ landmarks 10),
    (JS.at_ landmarks 16), (JS.at_ landmarks 14),
    (JS.at_ landmarks 20), (JS.at_ landmarks 18);
    cbn in H; try lia; cbn;
    repeat match goal with |- context [cmp ?a ?b] => destruct (cmp a b) end;
    reflexivity.
Qed.

(** X11: on a hand of at least 21 landmarks, the older component's
    classifier gives the same gesture as the present one when the tip
    and pip of all four fingers are there, and throws when one of them
    is missing (the present one still classifies on three fingers). *)
Theorem legacy_detectVowel_agrees (landmarks : Landmarks) :
  (21 <= length landmarks)%nat ->
  (GestureSpec.validPairs landmarks = 4%nat ->
     Legacy.detectVowel (Some landmarks) = Some (detectVowel (Some landmarks))) /\
  ((GestureSpec.validPairs landmarks < 4)%nat ->
     Legacy.detectVowel (Some landmarks) = None).
Proof.
  intros Hlen. rewrite <- valid_count.
  unfold Legacy.detectVowel, detectVowel.
  destruct (length landmarks <? 21)%nat eqn:E21;
    [apply Nat.ltb_lt in E21; lia |].
  split; intros Hv.
  - rewrite !(fingers_all_valid _ Hv). rewrite Hv. reflexivity.
  - now rewrite (fingers_some_missing _ Hv).
Qed.

Lemma legacy_detectVowel_agrees_witness :
  Legacy.detectVowel (Some GestureSpec.openHand) = Some A.
Proof.
  destruct (legacy_detectVowel_agrees GestureSpec.openHand) as [H _].
  - cbn. lia.
  - apply H. reflexivity.
Defined.

End Symmetry.

(** ** The harmonizer hook's sequences *)

Section Hook.
Import Harmonizer Sequences.
Variable midiToNoteName : Z -> string.

Lemma handleHarmonyReceived_inSync notes h :
  inSync h -> inSync (fst (handleHarmonyReceived notes h)).
Proof.
  unfold handleHarmonyReceived. intros H.
  destruct (length notes <? 4)%nat; [exact H |].
  destruct notes as [|n1 [|n2 [|n3 [|n4 rest]]]]; try exact H.
  cbn [fst]. destruct (negb (isRealTimeMode h)), (sequenceRef h) eqn:E;
    try exact H; reflexivity.
Qed.

Lemma harmonizeNote_inSync now midiNote h :
  inSync h -> inSync (snd (harmonizeNote midiToNoteName now midiNote h)).
Proof.
  unfold harmonizeNote, postMessage. intros H.
  destruct (isReady (state h)); [| exact H].
  destruct (workerRef h) eqn:Ew; [| exact H].
  destruct (sequenceRef h) eqn:Es; cbn [snd].
  - cbn [setSequence workerRef]. rewrite Ew. reflexivity.
  - rewrite Ew. unfold inSync in *. cbn. congruence.
Qed.

Lemma harmonizeNotes_inSync clock melody :
  forall i h, inSync h -> inSync (snd (harmonizeNotes midiToNoteName clock i melody h)).
Proof.
  induction melody as [|note rest IH]; intros i h H; [exact H |].
  cbn [harmonizeNotes].
  pose proof (harmonizeNote_inSync (clock i) note h H) as H1.
  destruct (harmonizeNote midiToNoteName (clock i) note h) as [[|] h1]; cbn [snd] in *.
  - now apply IH.
  - exact H1.
Qed.

Lemma apply_inSync h o : inSync h -> inSync (apply midiToNoteName h o).
Proof.
  intros H.
  destruct o as [m|message|failure|now created ttl|now midi|now created clock mel ttl
                | |midi| |]; cbn [apply].
  - destruct m as [|[notes|]|]; cbn [onmessage fst]; try exact H.
    now apply handleHarmonyReceived_inSync.
  - exact H.
  - destruct failure; exact H.
  - reflexivity.
  - now apply harmonizeNote_inSync.
  - unfold harmonizeMelody. destruct (negb (isReady (state h))); [exact H |].
    pose proof (harmonizeNotes_inSync clock mel 0
                  (snd (startNewSequence now created
                          (Some match ttl with Some t => t | None => "AI Harmony" end)
                          (setIsPlaying true h))) eq_refl) as H1.
    destruct (harmonizeNotes _ _ _ _ _) as [c h3]. exact H1.
  - reflexivity.
  - unfold harmonizeNoteRealTime.
    destruct (isReady (state h)), (workerRef h); exact H.
  - exact H.
  - exact H.
Qed.

(** X12: whatever is done to the hook, the sequence in its ref and the
    sequence in its state are the same one. *)
Theorem sequence_ref_in_sync (ops : list (Op)) :
  sequenceRef (session midiToNoteName ops)
  = currentSequence (state (session midiToNoteName ops)).
Proof.
  unfold session. change (inSync (fold_left (apply midiToNoteName) ops initial)).
  assert (H : inSync initial) by reflexivity.
  revert H. generalize initial.
  induction ops as [|o ops IH]; intros h H; [exact H |].
  cbn [fold_left]. apply IH, apply_inSync, H.
Qed.

(** X13: [harmonizeNote] throws, changing nothing, unless the harmonizer
    is ready and has a worker; otherwise it posts the note, and when a
    sequence is open it appends to its melody one note with that MIDI
    number and the present time, leaving the harmonies alone. *)
Theorem harmonizeNote_outcome (now midiNote : Z) (h : Hook) :
  match harmonizeNote midiToNoteName now midiNote h with
  | (Audio.Threw, h') =>
      (isReady (state h) = false \/ workerRef h = None) /\ h' = h
  | (Audio.Returned, h') =>
      isReady (state h) = true /\
      (exists ms, workerRef h = Some ms /\ workerRef h' = Some (ms ++ [Some midiNote])) /\
      match sequenceRef h with
      | None => sequenceRef h' = None
      | Some s =>
          exists s', sequenceRef h' = Some s' /\
            melody s' = melody s ++ [{| melodyMidiNote := midiNote;
                                        noteName := midiToNoteName midiNote;
                                        timestamp := now |}] /\
            harmonies s' = harmonies s /\ id s' = id s /\ title s' = title s
      end
  end.
Proof.
  unfold harmonizeNote, postMessage.
  destruct (isReady (state h)) eqn:Er; [| split; auto].
  destruct (workerRef h) as [ms|] eqn:Ew; [| split; auto].
  destruct (sequenceRef h) as [s|] eqn:Es.
  - cbn [workerRef setSequence]. rewrite Ew.
    split_and!; [reflexivity | exists ms; split; reflexivity |].
    eexists. split_and!; reflexivity.
  - rewrite Ew.
    split_and!; [reflexivity | exists ms; split; reflexivity | exact Es].
Qed.

Lemma notesFrom_midi clock melody :
  forall i, map melodyMidiNote (notesFrom midiToNoteName clock i melody) = melody.
Proof.
  induction melody as [|n rest IH]; intros i; [reflexivity |].
  cbn. now rewrite IH.
Qed.

Lemma notesFrom_length clock melody :
  forall i, length (notesFrom midiToNoteName clock i melody) = length melody.
Proof.
  induction melody as [|n rest IH]; intros i; [reflexivity |].
  cbn. now rewrite IH.
Qed.

(** The loop on a ready hook with a worker and an open sequence. *)
Lemma harmonizeNotes_ready clock melody :
  forall i h ms s,
    isReady (state h) = true -> workerRef h = Some ms -> sequenceRef h = Some s ->
    currentSequence (state h) = Some s ->
    exists h',
      harmonizeNotes midiToNoteName clock i melody h = (Audio.Returned, h') /\
      workerRef h' = Some (ms ++ map Some melody) /\
      sequenceRef h' = Some (fold_left (fun s n => addMelody n s)
                                       (notesFrom midiToNoteName clock i melody) s) /\
      currentSequence (state h') = sequenceRef h' /\
      isPlaying (state h') = isPlaying (state h) /\
      isReady (state h') = true.
Proof.
  induction melody as [|note rest IH]; intros i h ms s Hr Hw Hs Hc.
  - exists h. cbn. rewrite app_nil_r. split_and!; congruence.
  - cbn [harmonizeNotes]. unfold harmonizeNote, postMessage at 1.
    rewrite Hr, Hw, Hs. cbn [workerRef setSequence]. rewrite Hw.
    edestruct (IH (S i)) as (h' & E & Hw' & Hs' & Hc' & Hp' & Hr');
      [| | | | exists h'; rewrite E; split_and!;
               [reflexivity | | exact Hs' | exact Hc' | exact Hp' | exact Hr']];
      try reflexivity.
    + cbn. exact Hr.
    + rewrite Hw'. cbn. now rewrite <- app_assoc.
Qed.

Lemma fold_addMelody notes :
  forall s,
    melody (fold_left (fun s n => addMelody n s) notes s) = melody s ++ notes /\
    harmonies (fold_left (fun s n => addMelody n s) notes s) = harmonies s /\
    id (fold_left (fun s n => addMelody n s) notes s) = id s /\
    title (fold_left (fun s n => addMelody n s) notes s) = title s.
Proof.
  induction notes as [|n notes IH]; intros s; cbn [fold_left].
  - rewrite app_nil_r. auto.
  - destruct (IH (addMelody n s)) as (Hm & Hh & Hi & Ht).
    rewrite Hm, Hh, Hi, Ht. cbn. rewrite <- app_assoc. auto.
Qed.

(** X14: on a ready hook with a worker, [harmonizeMelody] (with nothing
    else touching the hook during its waits) returns having posted the
    melody's notes in order, after what was posted before; it leaves a
    new sequence, named by the time of the call, whose melody holds
    those notes and no harmony yet, and is no longer playing; the
    statistics then count the melody's notes and no chord. *)
Theorem harmonizeMelody_posts_all (now created : Z) (clock : nat -> Z)
        (melody : list Z) (title : option string) (h : Hook) (ms : list (option Z)) :
  isReady (state h) = true ->
  workerRef h = Some ms ->
  exists h' s',
    harmonizeMelody midiToNoteName now created clock melody title h
    = (Audio.Returned, h') /\
    posted h' = ms ++ map Some melody /\
    sequenceRef h' = Some s' /\ currentSequence (state h') = Some s' /\
    id s' = toString now /\
    Harmonizer.title s' = match title with Some t => t | None => "AI Harmony" end /\
    map melodyMidiNote (Harmonizer.melody s') = melody /\
    map timestamp (Harmonizer.melody s') = map clock (seq 0 (length melody)) /\
    harmonies s' = [] /\
    isPlaying (state h') = false /\
    (totalNotes <$> getStats h') = Some (length melody) /\
    (totalChords <$> getStats h') = Some 0%nat.
Proof.
  intros Hr Hw. unfold harmonizeMelody. rewrite Hr. cbn [negb].
  edestruct (harmonizeNotes_ready clock melody 0) as (h3 & E & Hw3 & Hs3 & Hc3 & _ & _);
    [| | | | rewrite E]; try reflexivity.
  - cbn. exact Hr.
  - cbn. exact Hw.
  - match type of Hs3 with _ = Some ?s => set (s' := s) in * end.
    destruct (fold_addMelody (notesFrom midiToNoteName clock 0 melody)
                {| id := toString now;
                   Harmonizer.title := match title with Some t => t | None => "AI Harmony" end;
                   Harmonizer.melody := []; harmonies := []; createdAt := created |})
      as (Hm & Hh & Hi & Ht).
    fold s' in Hm, Hh, Hi, Ht. cbn in Hm, Hh, Hi, Ht.
    exists (setIsPlaying false h3), s'.
    split_and!; try reflexivity.
    + unfold posted. cbn [workerRef setIsPlaying]. now rewrite Hw3.
    + exact Hs3.
    + cbn. congruence.
    + exact Hi.
    + exact Ht.
    + rewrite Hm. apply notesFrom_midi.
    + rewrite Hm. clear. generalize 0%nat.
      induction melody as [|n rest IH]; intros i; [reflexivity |].
      cbn. now rewrite IH.
    + exact Hh.
    + unfold getStats. cbn [state setIsPlaying currentSequence]. rewrite Hc3, Hs3.
      cbn. rewrite Hm. now rewrite notesFrom_length.
    + unfold getStats. cbn [state setIsPlaying currentSequence]. rewrite Hc3, Hs3.
      cbn. now rewrite Hh.
Qed.


(** X15: [harmonizeMelody] on a hook that is not ready throws and
    changes nothing.  On a ready hook without a worker it throws at the
    first note, and by then it has replaced the current sequence with a
    new, empty one and is no longer playing; only for an empty melody
    does it return. *)
Theorem harmonizeMelody_failure (now created : Z) (clock : nat -> Z)
        (melody : list Z) (title : option string) (h : Hook) :
  (isReady (state h) = false ->
     harmonizeMelody midiToNoteName now created clock melody title h
     = (Audio.Threw, h)) /\
  (isReady (state h) = true -> workerRef h = None ->
     let r := harmonizeMelody midiToNoteName now created clock melody title h in
     (fst r = Audio.Threw <-> melody <> []) /\
     posted (snd r) = [] /\
     isPlaying (state (snd r)) = false /\
     exists s', sequenceRef (snd r) = Some s' /\
                currentSequence (state (snd r)) = Some s' /\
                id s' = toString now /\
                Harmonizer.melody s' = [] /\ harmonies s' = []).
Proof.
  split.
  - intros Hr. unfold harmonizeMelody. now rewrite Hr.
  - intros Hr Hw. unfold harmonizeMelody. rewrite Hr. cbn [negb].
    destruct melody as [|note rest].
    + cbn. unfold posted. cbn. rewrite Hw.
      split_and!; try reflexivity.
      * split; [discriminate | congruence].
      * eexists. split_and!; reflexivity.
    + cbn [harmonizeNotes]. unfold harmonizeNote.
      cbn [state setIsPlaying startNewSequence snd setSequence isReady workerRef].
      rewrite Hr, Hw. cbn. unfold posted. cbn. rewrite Hw.
      split_and!; try reflexivity.
      * split; [discriminate | reflexivity].
      * eexists. split_and!; reflexivity.
Qed.


End Hook.

Section HookMode.
Import Harmonizer Sequences.

Lemma harmonizeMelody_posts_all_witness :
  exists h' s',
    harmonizeMelody toString 1700 1700 (fun i => 1700 + 1000 * Z.of_nat i)
                    [60; 64; 67] None GestureSpec.readyHook
    = (Audio.Returned, h') /\
    posted h' = [] ++ map Some [60; 64; 67] /\
    sequenceRef h' = Some s' /\ id s' = "1700".
Proof.
  destruct (harmonizeMelody_posts_all toString 1700 1700 (fun i => 1700 + 1000 * Z.of_nat i)
              [60; 64; 67] None GestureSpec.readyHook [] eq_refl eq_refl)
    as (h' & s' & E & Hp & Hs & _ & Hi & _).
  exists h', s'. split_and!; [exact E | exact Hp | exact Hs | exact Hi].
Defined.

Lemma harmonizeMelody_failure_witness :
  harmonizeMelody toString 1700 1700 (fun _ => 1700) [60] None initial
  = (Audio.Threw, initial).
Proof.
  destruct (harmonizeMelody_failure toString 1700 1700 (fun _ => 1700) [60] None initial)
    as [H _].
  apply H. reflexivity.
Defined.

Lemma sumNotes_from (ms : list MelodyNote) :
  forall acc, fold_left (fun sum note => sum + melodyMidiNote note) ms acc
              = acc + sumNotes ms.
Proof.
  unfold sumNotes.
  induction ms as [|m ms IH]; intros acc; cbn [fold_left]; [lia |].
  rewrite IH, (IH (0 + melodyMidiNote m)). lia.
Qed.

Lemma sumNotes_bounds (lo hi : Z) (ms : list MelodyNote) :
  Forall (fun m => lo <= melodyMidiNote m <= hi) ms ->
  lo * Z.of_nat (length ms) <= sumNotes ms <= hi * Z.of_nat (length ms).
Proof.
  induction 1 as [|m ms Hm _ IH].
  - cbn. lia.
  - unfold sumNotes. cbn [fold_left length]. rewrite sumNotes_from. lia.
Qed.

(** X16: the statistics of a sequence with at least one melody note give
    an average note height between the lowest and the highest note of
    the melody, and count its notes and chords; without a sequence there
    are no statistics, and an empty melody has average and duration 0. *)
Theorem getStats_average_bounds (h : Hook) (s : HarmonySequence) (lo hi : Z) :
  currentSequence (state h) = Some s ->
  Forall (fun m => lo <= melodyMidiNote m <= hi) (melody s) ->
  exists st,
    getStats h = Some st /\
    totalNotes st = length (melody s) /\
    totalChords st = length (harmonies s) /\
    (melody s = [] -> (averageNoteHeight st == 0)%Q /\ (duration st == 0)%Q) /\
    (melody s <> [] ->
       (inject_Z lo <= averageNoteHeight st)%Q /\
       (averageNoteHeight st <= inject_Z hi)%Q).
Proof.
  intros Hs Hb. unfold getStats. rewrite Hs.
  eexists. split; [reflexivity |]. cbn.
  split_and!; try reflexivity.
  - intros ->. split; reflexivity.
  - intros Hne.
    pose proof (sumNotes_bounds lo hi _ Hb) as [Hlo Hhi].
    destruct (melody s) as [|m ms] eqn:Em; [contradiction |].
    set (n := Z.of_nat (length (m :: ms))) in *.
    assert (Hn : (0 < inject_Z n)%Q).
    { change (inject_Z 0 < inject_Z n)%Q. rewrite <- Zlt_Qlt. subst n. cbn. lia. }
    split.
    + apply Qle_shift_div_l; [exact Hn |].
      rewrite <- inject_Z_mult, <- Zle_Qle. exact Hlo.
    + apply Qle_shift_div_r; [exact Hn |].
      rewrite <- inject_Z_mult, <- Zle_Qle. exact Hhi.
Qed.

Lemma getStats_average_bounds_witness :
  exists st,
    getStats (snd (harmonizeMelody toString 0 0 (fun _ => 0) [60; 76] None
                     GestureSpec.readyHook)) = Some st /\
    (inject_Z 60 <= averageNoteHeight st)%Q /\
    (averageNoteHeight st <= inject_Z 76)%Q.
Proof.
  edestruct (getStats_average_bounds
               (snd (harmonizeMelody toString 0 0 (fun _ => 0) [60; 76] None
                       GestureSpec.readyHook)) _ 60 76 eq_refl)
    as (st & E & _ & _ & _ & H).
  - cbn. repeat constructor; cbn; lia.
  - exists st. split; [exact E |]. apply H. discriminate.
Defined.

(** X17: while the hook is not in real-time mode and a sequence is
    open, every response of at least 4 notes appends its chord to the
    sequence's harmonies (one more chord in the statistics, the melody
    untouched); in real-time mode, or without a sequence, a response
    leaves the sequence as it is. *)
Theorem response_recorded_in_sequence (notes : list HarmonizerNote) (h : Hook) :
  (4 <= length notes)%nat ->
  let h' := fst (handleHarmonyReceived notes h) in
  match sequenceRef h with
  | Some s =>
      if isRealTimeMode h
      then sequenceRef h' = Some s /\ currentSequence (state h') = currentSequence (state h)
      else exists chord,
             snd (handleHarmonyReceived notes h) = [chord] /\
             sequenceRef h' = Some (addHarmony chord s) /\
             currentSequence (state h') = Some (addHarmony chord s) /\
             harmonies (addHarmony chord s) = harmonies s ++ [chord] /\
             melody (addHarmony chord s) = melody s /\
             (totalChords <$> getStats h') = Some (S (length (harmonies s)))
  | None => sequenceRef h' = None /\ currentSequence (state h') = currentSequence (state h)
  end.
Proof.
  intros Hlen. unfold handleHarmonyReceived.
  destruct (length notes <? 4)%nat eqn:E; [apply Nat.ltb_lt in E; lia |].
  destruct notes as [|n1 [|n2 [|n3 [|n4 rest]]]]; try (cbn in Hlen; lia).
  cbn [fst snd].
  destruct (sequenceRef h) as [s|] eqn:Es; destruct (isRealTimeMode h); cbn [negb].
  - cbn. auto.
  - eexists. split_and!; try reflexivity.
    unfold getStats. cbn. rewrite length_app. cbn. f_equal. lia.
  - cbn. auto.
  - cbn. auto.
Qed.

Lemma response_recorded_in_sequence_witness :
  sequenceRef
    (fst (handleHarmonyReceived
            [{| midiNote := 60 |}; {| midiNote := 64 |}; {| midiNote := 67 |};
             {| midiNote := 72 |}] GestureSpec.readyHook)) = None.
Proof.
  pose proof (response_recorded_in_sequence
                [{| midiNote := 60 |}; {| midiNote := 64 |}; {| midiNote := 67 |};
                 {| midiNote := 72 |}] GestureSpec.readyHook) as H.
  cbn in H. apply H. lia.
Defined.

(** X18: toggling the real-time mode twice restores the mode and the
    sequence, but not the harmony and not the worker: one of the two
    toggles enters real-time mode and clears the current harmony, and
    each toggle makes the worker effect run again, so that the hook ends
    up loading, with a new worker that has been sent nothing, while its
    readiness is what it was. *)
Theorem toggleRealTimeMode_twice (h : Hook) :
  let h2 := Render.toggleRealTimeMode None (Render.toggleRealTimeMode None h) in
  isRealTimeMode h2 = isRealTimeMode h /\
  currentHarmony h2 = None /\
  (isRealTimeMode h = true ->
     currentHarmony (Render.toggleRealTimeMode None h) = currentHarmony h) /\
  sequenceRef h2 = sequenceRef h /\
  currentSequence (state h2) = currentSequence (state h) /\
  workerRef h2 = Some [] /\
  isLoading (state h2) = true /\
  isReady (state h2) = isReady (state h) /\
  workerRef (Render.toggleRealTimeMode None h) = Some [] /\
  isLoading (state (Render.toggleRealTimeMode None h)) = true.
Proof.
  unfold Render.toggleRealTimeMode, initializeHarmonizer, toggleRealTimeMode. cbn.
  destruct (isRealTimeMode h); cbn; split_and!; try reflexivity.
  discriminate.
Qed.

(** A ready hook that has sent a request: after one toggle it is
    loading again although still ready, and the request has gone with
    the terminated worker. *)
Example toggle_replaces_worker :
  let h := snd (harmonizeNoteRealTime (Some 60) GestureSpec.readyHook) in
  posted h = [Some 60] /\
  posted (Render.toggleRealTimeMode None h) = [] /\
  isLoading (state h) = false /\
  isLoading (state (Render.toggleRealTimeMode None h)) = true /\
  isReady (state (Render.toggleRealTimeMode None h)) = true.
Proof. cbv zeta. split_and!; reflexivity. Qed.

(** X19: once the worker has reported [Loaded], the component's effect
    puts the hook in real-time mode and has nothing more to do; from
    then on no message from the worker changes the sequence, its ref or
    the readiness. *)
Theorem real_time_once_loaded (h : Hook) (m : WorkerMessage) :
  let h1 := Session.realTimeEffect (fst (onmessage Loaded h)) in
  isReady (state h1) = true /\
  isRealTimeMode h1 = true /\
  Session.realTimeEffect h1 = h1 /\
  sequenceRef (fst (onmessage m h1)) = sequenceRef h /\
  currentSequence (state (fst (onmessage m h1))) = currentSequence (state h) /\
  isRealTimeMode (fst (onmessage m h1)) = true /\
  isReady (state (fst (onmessage m h1))) = true.
Proof.
  unfold Session.realTimeEffect. cbn [onmessage fst state isReady isRealTimeMode andb].
  destruct (isRealTimeMode h) eqn:Em; cbn [negb];
    (split_and!; [reflexivity | cbn; try rewrite Em; reflexivity
                 | cbn; try rewrite Em; reflexivity | ..]);
    destruct m as [|[notes|]|]; cbn [onmessage fst]; try reflexivity;
    unfold handleHarmonyReceived;
    destruct (length notes <? 4)%nat; try reflexivity;
    destruct notes as [|n1 [|n2 [|n3 [|n4 rest]]]]; try reflexivity;
    cbn; try rewrite Em; reflexivity.
Qed.

(** [x <> x -> _] *)
Ltac unchanged := let H := fresh in intros H; now contradiction H.

(** X20: a message from the worker changes the current harmony only if
    it is a 'Notes' message carrying at least 4 notes, and then the
    harmony is the chord of its first four; it changes the readiness
    only if it is 'Loaded'. *)
Theorem onmessage_changes (m : WorkerMessage) (h : Hook) :
  (currentHarmony (fst (onmessage m h)) <> currentHarmony h ->
   exists n1 n2 n3 n4 rest,
     m = Notes (Some (n1 :: n2 :: n3 :: n4 :: rest)) /\
     currentHarmony (fst (onmessage m h))
     = Some {| soprano := n1; alto := n2; tenor := n3; bass := n4 |}) /\
  (isReady (state (fst (onmessage m h))) <> isReady (state h) -> m = Loaded) /\
  (workerRef (fst (onmessage m h)) = workerRef h).
Proof.
  destruct m as [|[notes|]|]; cbn [onmessage fst].
  - split_and!; [intros H; now contradiction H | reflexivity | reflexivity].
  - unfold handleHarmonyReceived.
    destruct (length notes <? 4)%nat.
    { split_and!; [unchanged | unchanged | reflexivity]. }
    destruct notes as [|n1 [|n2 [|n3 [|n4 rest]]]];
      try (split_and!; [unchanged | unchanged | reflexivity]).
    cbn [fst]. split_and!.
    + intros _. exists n1, n2, n3, n4, rest. split; [reflexivity |].
      destruct (negb (isRealTimeMode h)), (sequenceRef h); reflexivity.
    + intros H. contradiction H.
      destruct (negb (isRealTimeMode h)), (sequenceRef h); reflexivity.
    + destruct (negb (isRealTimeMode h)), (sequenceRef h); reflexivity.
  - split_and!; [unchanged | unchanged | reflexivity].
  - split_and!; [unchanged | unchanged | reflexivity].
Qed.

Lemma onmessage_changes_witness :
  exists n1 n2 n3 n4 rest,
    Notes (Some [{| midiNote := 60 |}; {| midiNote := 64 |}; {| midiNote := 67 |};
                 {| midiNote := 72 |}])
    = Notes (Some (n1 :: n2 :: n3 :: n4 :: rest)).
Proof.
  destruct (onmessage_changes
              (Notes (Some [{| midiNote := 60 |}; {| midiNote := 64 |};
                            {| midiNote := 67 |}; {| midiNote := 72 |}]))
              GestureSpec.readyHook) as [H _].
  destruct H as (n1 & n2 & n3 & n4 & rest & E & _); [discriminate |].
  exists n1, n2, n3, n4, rest. exact E.
Defined.

End HookMode.

(** ** What the engine keeps true *)

Section EngineKept.
Import Audio Kept.

(** Case analysis on the step taken. *)
Ltac by_step s :=
  destruct s as [pf now|now s a t b|pf initNow now s a t b|now|now volume|now|master perVoice];
  cbn [step].

Lemma rampsInRange_schedule g cs :
  rampsInRange g ->
  Forall (fun c => match c with
                   | linearRampToValueAtTime v _ => (0 <= v <= 1)%Q
                   | _ => True
                   end) cs ->
  rampsInRange (schedule g cs).
Proof. intros Hg Hcs. unfold rampsInRange, schedule. cbn. now apply Forall_app. Qed.

Lemma step_masterKept e s : masterKept e -> masterKept (step e s).
Proof.
  unfold masterKept. intros Hinv. by_step s.
  - unfold initialize. destruct (isInitialized e); [exact Hinv |].
    destruct pf as [| |resumeOk]; [exact Hinv | |];
      cbn; intros g [= <-]; repeat constructor.
  - exact Hinv.
  - unfold playChord, initialize. destruct (isInitialized e); [exact Hinv |].
    destruct pf as [| |[|]]; [exact Hinv | | |];
      cbn; intros g [= <-]; repeat constructor.
  - exact Hinv.
  - unfold setMasterVolume.
    destruct (masterGain e) as [g0|] eqn:Eg; [| now rewrite Eg].
    destruct (isInitialized e); [| now rewrite Eg].
    cbn. intros g [= <-]. apply rampsInRange_schedule; [now apply Hinv |].
    repeat constructor; apply clamp01_range.
  - exact Hinv.
  - cbn. intros g Hg.
    destruct (masterGain e) as [g0|]; [| discriminate].
    cbn in Hg. injection Hg as <-. exact (Hinv g0 eq_refl).
Qed.

(** X21: whatever volumes are asked of the engine, and in whatever
    state, every ramp it has scheduled on the master gain ends within
    [0,1]. *)
Theorem master_ramps_in_range (steps : list Step) (g : AudioParam) :
  masterGain (run steps) = Some g -> rampsInRange g.
Proof.
  revert g. change (masterKept (run steps)).
  unfold run. apply (fold_invariant masterKept); [apply step_masterKept |].
  intros g. discriminate.
Qed.

Lemma master_ramps_in_range_witness :
  rampsInRange
    {| value := 0.5;
       calls := [setValueAtTime 0.5 0; cancelScheduledValues 2; setValueAtTime 0.5 2;
                 linearRampToValueAtTime (JS.clamp01 (-4)) (2 + transitionTime)] |}.
Proof.
  apply (master_ramps_in_range (GestureSpec.playing ++ [SetMasterVolume 2 (-4)])).
  reflexivity.
Defined.

Lemma live_stop_faded now v : live v -> faded (stop now v).
Proof.
  intros (t0 & H1 & H2 & _ & _). exists t0, now.
  split_and!; [exact H1 | exact H2 | apply stop_fades].
Qed.

Lemma stopAll_voicesKept now e : voicesKept e -> voicesKept (stopAll now e).
Proof.
  intros [Hv Hr]. split.
  - intros k v H. cbn in H. now rewrite lookup_empty in H.
  - cbn. apply Forall_app. split; [exact Hr |].
    apply Forall_forall. intros v' Hin.
    apply list_elem_of_fmap in Hin as (v & -> & Hin).
    apply list_elem_of_fmap in Hin as ([k v0] & -> & Hin).
    apply elem_of_map_to_list in Hin. cbn.
    apply live_stop_faded. now apply (Hv k).
Qed.

Lemma playVoices_voicesKept now s a t b e :
  voicesKept e -> voicesKept (playVoices now s a t b e).
Proof.
  intros H. destruct (stopAll_voicesKept now e H) as [_ Hr].
  split; [| exact Hr].
  intros k v Hk. cbn in Hk. rewrite lookup_fmap in Hk.
  destruct (decide (k = "bass")) as [-> | Hb];
    [rewrite lookup_insert_eq in Hk | rewrite lookup_insert_ne in Hk by congruence].
  { injection Hk as <-. split; [exists now; repeat split | reflexivity]. }
  destruct (decide (k = "tenor")) as [-> | Ht];
    [rewrite lookup_insert_eq in Hk | rewrite lookup_insert_ne in Hk by congruence].
  { injection Hk as <-. split; [exists now; repeat split | reflexivity]. }
  destruct (decide (k = "alto")) as [-> | Ha];
    [rewrite lookup_insert_eq in Hk | rewrite lookup_insert_ne in Hk by congruence].
  { injection Hk as <-. split; [exists now; repeat split | reflexivity]. }
  destruct (decide (k = "soprano")) as [-> | Hs];
    [rewrite lookup_insert_eq in Hk | rewrite lookup_insert_ne in Hk by congruence].
  { injection Hk as <-. split; [exists now; repeat split | reflexivity]. }
  rewrite lookup_empty in Hk. discriminate.
Qed.

Lemma step_voicesKept e s : voicesKept e -> voicesKept (step e s).
Proof.
  intros Hinv. by_step s.
  - unfold initialize. destruct (isInitialized e); [exact Hinv |].
    destruct pf as [| |resumeOk]; exact Hinv.
  - now apply playVoices_voicesKept.
  - unfold playChord, initialize.
    destruct (isInitialized e); [now apply playVoices_voicesKept |].
    destruct pf as [| |[|]]; cbn [snd];
      first [exact Hinv | now apply playVoices_voicesKept].
  - now apply stopAll_voicesKept.
  - unfold setMasterVolume.
    destruct (masterGain e); [| exact Hinv].
    destruct (isInitialized e); exact Hinv.
  - destruct (stopAll_voicesKept now e Hinv) as [Hv Hr]. split; assumption.
  - destruct Hinv as [Hv Hr]. split; [| exact Hr].
    intros k v Hk. cbn in Hk. rewrite lookup_fmap in Hk.
    destruct (currentVoices e !! k) as [v0|] eqn:E; [| discriminate].
    cbn in Hk. injection Hk as <-. exact (Hv k v0 E).
Qed.

(** X22: in every state the engine can reach, each voice in its map
    sits under the key of its own part, has had both oscillators started
    and has not been told to stop; and each voice it has dropped from
    the map had been started and was then told to fade out.  So [stop]
    is never called on a voice that was not started, nor on one that was
    stopped before. *)
Theorem voices_started_then_faded (steps : list Step) :
  (forall k v, currentVoices (run steps) !! k = Some v -> live v /\ voiceType v = k) /\
  Forall faded (released (run steps)).
Proof.
  change (voicesKept (run steps)).
  unfold run. apply (fold_invariant voicesKept); [apply step_voicesKept |].
  split; [| constructor].
  intros k v H. cbn in H. now rewrite lookup_empty in H.
Qed.

Lemma step_contextKept e s : contextKept e -> contextKept (step e s).
Proof.
  unfold contextKept. intros Hinv. by_step s.
  - unfold initialize. destruct (isInitialized e) eqn:E.
    + cbn [snd]. intros _. now apply Hinv.
    + destruct pf as [| |resumeOk]; cbn; [rewrite E; discriminate | eauto ..].
  - exact Hinv.
  - unfold playChord, initialize. destruct (isInitialized e) eqn:E.
    + cbn. intros _. now apply Hinv.
    + destruct pf as [| |[|]]; cbn; [rewrite E; discriminate | eauto ..].
  - exact Hinv.
  - unfold setMasterVolume.
    destruct (masterGain e) eqn:Eg; [| exact Hinv].
    destruct (isInitialized e) eqn:E;
      [cbn; intros _; now apply Hinv | rewrite E; exact Hinv].
  - cbn. intros H. destruct (Hinv H) as [x ->]. eauto.
  - exact Hinv.
Qed.

Lemma run_contextKept steps : contextKept (run steps).
Proof.
  unfold run. apply (fold_invariant contextKept); [apply step_contextKept |].
  discriminate.
Qed.

(** X23: [destroy] fades the voices out and closes the audio context,
    but leaves the engine marked initialized; a later [playChord]
    therefore does not create a new context: it returns with four
    voices in the map, on the closed context. *)
Theorem destroyed_engine_stays_initialized (steps : list Step) (now later : Q)
        (pf : Platform) (initNow : Q) (soprano alto tenor bass : Z) :
  isInitialized (run steps) = true ->
  let e := destroy now (run steps) in
  currentVoices e = ∅ /\
  audioContext e = Some closed /\
  isInitialized e = true /\
  fst (playChord pf initNow later soprano alto tenor bass e) = Returned /\
  audioContext (snd (playChord pf initNow later soprano alto tenor bass e)) = Some closed /\
  size (currentVoices (snd (playChord pf initNow later soprano alto tenor bass e))) = 4%nat.
Proof.
  intros Hi e.
  destruct (run_contextKept steps Hi) as [ctx Hctx].
  assert (Hc : audioContext e = Some closed) by (cbn; now rewrite Hctx).
  assert (Hie : isInitialized e = true) by exact Hi.
  split_and!; try assumption; try reflexivity.
  - unfold playChord. now rewrite Hie.
  - unfold playChord. rewrite Hie. exact Hc.
  - unfold playChord. rewrite Hie. cbn [snd]. apply satb_size, playVoices_dom.
Qed.

Lemma destroyed_engine_stays_initialized_witness :
  audioContext
    (snd (playChord ContextRunning 5 5 60 64 67 72 (destroy 4 (run GestureSpec.playing))))
  = Some closed.
Proof.
  destruct (destroyed_engine_stays_initialized GestureSpec.playing 4 5
              ContextRunning 5 60 64 67 72 eq_refl) as (_ & _ & _ & _ & H & _).
  exact H.
Defined.

(** X24: when the context comes up suspended and [resume] is rejected,
    [initialize] throws, yet it has already marked the engine
    initialized; the next [playChord] returns without resuming or
    creating anything, its four voices on the suspended context. *)
Theorem rejected_resume_is_not_retried (e : VocalAudioEngine) (initNow now : Q)
        (pf : Platform) (laterInit : Q) (soprano alto tenor bass : Z) :
  isInitialized e = false ->
  let r := initialize (ContextSuspended false) initNow e in
  fst r = Threw /\
  isInitialized (snd r) = true /\
  audioContext (snd r) = Some suspended /\
  fst (playChord pf laterInit now soprano alto tenor bass (snd r)) = Returned /\
  audioContext (snd (playChord pf laterInit now soprano alto tenor bass (snd r)))
  = Some suspended /\
  dom (currentVoices (snd (playChord pf laterInit now soprano alto tenor bass (snd r))))
  = satb.
Proof.
  intros Hi. unfold initialize. rewrite Hi. cbn [fst snd].
  split_and!; try reflexivity.
Qed.

Lemma rejected_resume_is_not_retried_witness :
  fst (playChord ContextRunning 1 1 60 64 67 72
         (snd (initialize (ContextSuspended false) 0 audioEngine))) = Returned.
Proof.
  destruct (rejected_resume_is_not_retried audioEngine 0 1 ContextRunning 1
              60 64 67 72 eq_refl) as (_ & _ & _ & H & _).
  exact H.
Defined.

End EngineKept.

(** ** From a response to sound *)

Section Sound.
Import Tracker.

(** X25: a response of at least 4 notes makes its first four the
    current harmony, and on an engine that is initialized (or whose
    context can be created) puts one started voice per part in the
    map, each on the MIDI note of its part; if the context cannot be
    created the harmony is still set and the engine is left as it was. *)
Theorem response_becomes_sound (pf : Audio.Platform) (initNow now : Q)
        (n1 n2 n3 n4 : Harmonizer.HarmonizerNote)
        (rest : list Harmonizer.HarmonizerNote)
        (c : Component) (h : Harmonizer.Hook) (e : Audio.VocalAudioEngine) :
  let '(c', h', e') :=
    onWorkerMessage pf initNow now
      (Harmonizer.Notes (Some (n1 :: n2 :: n3 :: n4 :: rest))) (c, h, e) in
  c' = c /\
  Harmonizer.currentHarmony h'
  = Some {| Harmonizer.soprano := n1; Harmonizer.alto := n2;
            Harmonizer.tenor := n3; Harmonizer.bass := n4 |} /\
  (Audio.isInitialized e = true \/ pf = Audio.ContextRunning
   \/ pf = Audio.ContextSuspended true ->
   Audio.currentVoices e' !! "soprano"
   = Some (Audio.start now (Audio.newVocalVoice now (Harmonizer.midiNote n1) "soprano")) /\
   Audio.currentVoices e' !! "alto"
   = Some (Audio.start now (Audio.newVocalVoice now (Harmonizer.midiNote n2) "alto")) /\
   Audio.currentVoices e' !! "tenor"
   = Some (Audio.start now (Audio.newVocalVoice now (Harmonizer.midiNote n3) "tenor")) /\
   Audio.currentVoices e' !! "bass"
   = Some (Audio.start now (Audio.newVocalVoice now (Harmonizer.midiNote n4) "bass")) /\
   size (Audio.currentVoices e') = 4%nat) /\
  (Audio.isInitialized e = false -> pf = Audio.ContextFails -> e' = e).
Proof.
  unfold onWorkerMessage. cbn [Harmonizer.onmessage].
  unfold Harmonizer.handleHarmonyReceived. cbn [length Nat.ltb Nat.leb].
  cbn [fold_left harmonyEffect Harmonizer.soprano Harmonizer.alto
       Harmonizer.tenor Harmonizer.bass].
  split_and!.
  - reflexivity.
  - destruct (negb (Harmonizer.isRealTimeMode h)), (Harmonizer.sequenceRef h);
      reflexivity.
  - intros Hok.
    assert (Hplay : exists e1,
               snd (Audio.playChord pf initNow now (Harmonizer.midiNote n1)
                      (Harmonizer.midiNote n2) (Harmonizer.midiNote n3)
                      (Harmonizer.midiNote n4) e)
               = Audio.playVoices now (Harmonizer.midiNote n1) (Harmonizer.midiNote n2)
                   (Harmonizer.midiNote n3) (Harmonizer.midiNote n4) e1).
    { unfold Audio.playChord, Audio.initialize.
      destruct (Audio.isInitialized e) eqn:Ei; [eexists; reflexivity |].
      destruct Hok as [Hok | [-> | ->]]; [discriminate | |]; eexists; reflexivity. }
    destruct Hplay as [e1 ->].
    pose proof (playVoices_lookup now (Harmonizer.midiNote n1) (Harmonizer.midiNote n2)
                  (Harmonizer.midiNote n3) (Harmonizer.midiNote n4) e1)
      as (Hs & Ha & Ht & Hb).
    split_and!; try assumption. apply satb_size, playVoices_dom.
  - intros Hi ->. unfold Audio.playChord, Audio.initialize. now rewrite Hi.
Qed.

Lemma response_becomes_sound_witness :
  size (Audio.currentVoices (snd GestureSpec.answered)) = 4%nat.
Proof.
  pose proof (response_becomes_sound Audio.ContextRunning 1 1
                {| Harmonizer.midiNote := 60 |} {| Harmonizer.midiNote := 64 |}
                {| Harmonizer.midiNote := 67 |} {| Harmonizer.midiNote := 72 |} []
                (fst (fst GestureSpec.appeared)) (snd (fst GestureSpec.appeared))
                (snd GestureSpec.appeared)) as H.
  unfold GestureSpec.answered.
  destruct GestureSpec.appeared as [[c h] e]. cbn [fst snd] in H.
  destruct (onWorkerMessage _ _ _ _ _) as [[c' h'] e'].
  destruct H as (_ & _ & H & _).
  apply H. right. left. reflexivity.
Defined.

End Sound.
